(** * Path validation of the Wikiracing agent (01_naive_agent.ipynb)

    A shallow embedding of the notebook's two functions,
    [get_outbound_links] (the [functools.cache]d Wikipedia lookup) and
    [validate_path] (the result validator that builds a [networkx.DiGraph]
    and asks [is_simple_path]), followed by the properties of the
    specification that concern them. *)

From stdpp Require Import gmap strings list fin_maps.

(** * Data model *)

(** [ResultType = Union[PathFoundResult, NoPathFoundResult]].  pydantic
    validates [pages_by_title : list[str]], so the validator only ever sees
    lists of strings. *)
Inductive ResultType : Type :=
| PathFoundResult (pages_by_title : list string)
| NoPathFoundResult.

(** The exceptions that can leave the two functions.  [ModelRetry] is
    pydantic-ai's retry signal (the "retryable rejection").  [MarkupError]
    is what [print] raises: the notebook imports [print] from [rich].
    [Escaped] stands for any exception of the Wikipedia client that is not
    a [PageError] (a [DisambiguationError], an [HTTPTimeoutError], a
    connection error...); the notebook has no handler for those.
    [KeyError] is what [G[u]] raises in networkx for a [u] that is not a
    node. *)
Inductive exception : Type :=
| ModelRetry (message : string)
| MarkupError (message : string)
| Escaped (name : string)
| KeyError (key : string).

Inductive completion (A : Type) : Type :=
| Return (a : A)
| Raise (e : exception).
Arguments Return {A} a.
Arguments Raise {A} e.

(** What [wikipedia.WikipediaPage(page_name, redirect=True).links] does for a
    title: it yields the page's links, raises [PageError] (whose [str] is
    [message]), or raises something else. *)
Inductive reply : Type :=
| Links (links : list string)
| PageError (message : string)
| OtherError (name : string).

(** The encyclopedia as the process sees it. *)
Definition wikipedia : Type := string → reply.

(** What [print(f'Getting outbound links for: "{page_name}"')] does for a
    title.  [print] is [rich.print], which reads the line as console
    markup: it prints it ([None]), or raises [MarkupError] with a message
    ([Some message]), as it does for a title with a closing tag that
    matches no open tag. *)
Definition console : Type := string → option string.

(** How [get_outbound_links] is called.  [validate_path] passes the title
    by position; the agent framework calls the tool by keyword.
    [functools.cache] makes its key from the positional and the keyword
    arguments, so [f(t)] and [f(page_name=t)] have different entries. *)
Inductive arguments : Type :=
| Positional (page_name : string)
| Keyword (page_name : string).

Definition page_name_of (args : arguments) : string :=
  match args with
  | Positional page_name => page_name
  | Keyword page_name => page_name
  end.

#[global] Instance arguments_eq_dec : EqDecision arguments.
Proof. solve_decision. Defined.

#[global] Instance arguments_countable : Countable arguments :=
  inj_countable'
    (λ args, match args with
             | Positional page_name => inl page_name
             | Keyword page_name => inr page_name
             end)
    (λ s, match s with
          | inl page_name => Positional page_name
          | inr page_name => Keyword page_name
          end)
    (λ args, match args with Positional _ => eq_refl | Keyword _ => eq_refl end).

(** The state of the Python process that matters here: the table kept by
    [functools.cache] for [get_outbound_links], and the log of the queries
    sent to Wikipedia, each with the arguments of the call that made it. *)
Record process : Type := Process {
  cache : gmap arguments (list string);
  fetched : list arguments
}.

Definition fresh : process := {| cache := ∅; fetched := [] |}.

(** What runs in the process: the agent framework calls [validate_path] on
    every result the model proposes, and [get_outbound_links] is also the
    tool the model asks for. *)
Inductive call : Type :=
| Validate (data : ResultType)
| Lookup (page_name : string).

(** * A state-and-exception monad for the Python code *)

Definition run (A : Type) : Type := process → completion A * process.

#[global] Instance run_ret : MRet run := λ A a p, (Return a, p).

#[global] Instance run_bind : MBind run := λ A B k m p,
  match m p with
  | (Return a, p') => k a p'
  | (Raise e, p') => (Raise e, p')
  end.

Definition raise {A : Type} (e : exception) : run A := λ p, (Raise e, p).

Definition lift {A : Type} (c : completion A) : run A := λ p, (c, p).

(** * networkx.DiGraph

    The three dictionaries of a [DiGraph]; node and edge attribute
    dictionaries are always empty in the notebook and are left out, so an
    inner adjacency dictionary is the set of its keys. *)
Record DiGraph : Type := Graph {
  _node : gset string;
  _succ : gmap string (gset string);
  _pred : gmap string (gset string)
}.

(** [DiGraph()] *)
Definition empty_graph : DiGraph := {| _node := ∅; _succ := ∅; _pred := ∅ |}.

(** The "add nodes" part of [add_edge]: [if u not in self._succ: ...]. *)
Definition ensure_node (n : string) (g : DiGraph) : DiGraph :=
  match _succ g !! n with
  | Some _ => g
  | None => {| _node := {[n]} ∪ _node g;
               _succ := <[n := ∅]> (_succ g);
               _pred := <[n := ∅]> (_pred g) |}
  end.

(** [g.add_edge(u, v)]: both ends become nodes, then
    [self._succ[u][v] = datadict; self._pred[v][u] = datadict]. *)
Definition add_edge (u v : string) (g : DiGraph) : DiGraph :=
  let g := ensure_node v (ensure_node u g) in
  {| _node := _node g;
     _succ := alter (λ nbrs, {[v]} ∪ nbrs) u (_succ g);
     _pred := alter (λ nbrs, {[u]} ∪ nbrs) v (_pred g) |}.

(** [n in G] *)
Definition contains (g : DiGraph) (n : string) : bool :=
  bool_decide (n ∈ _node g).

(** [all(v in G[u] for u, v in pairwise(nodes))], left to right and
    stopping at the first pair that fails; [G[u]] raises [KeyError] when [u]
    has no adjacency dictionary. *)
Fixpoint all_adjacent (g : DiGraph) (nodes : list string) : completion bool :=
  match nodes with
  | u :: rest =>
      match rest with
      | v :: _ =>
          match _succ g !! u with
          | None => Raise (KeyError u)
          | Some nbrs =>
              if bool_decide (v ∈ nbrs) then all_adjacent g rest
              else Return false
          end
      | [] => Return true
      end
  | [] => Return true
  end.

(** [networkx.is_simple_path(G, nodes)], as the library (3.4) has it: the
    empty list is not a path; a single node is a path when it is in the
    graph; a longer list needs all its nodes in the graph,
    [len(set(nodes)) == len(nodes)], and every consecutive pair adjacent. *)
Definition is_simple_path (g : DiGraph) (nodes : list string) : completion bool :=
  match nodes with
  | [] => Return false
  | [n] => Return (contains g n)
  | _ =>
      if negb (forallb (contains g) nodes) then Return false
      else if bool_decide (size (list_to_set nodes : gset string) ≠ length nodes)
      then Return false
      else all_adjacent g nodes
  end.

(** * The notebook's functions *)

Section Notebook.
Variable rich_print : console.
Variable w : wikipedia.

(** [@cache def get_outbound_links(page_name)].  A hit returns the stored
    list without running the body.  On a miss the body runs: the line with
    the title is printed, which can raise [MarkupError] before anything
    else is done; then Wikipedia is queried; a returned list is stored, an
    exception is not ([functools.cache] only stores return values).
    [PageError] is turned into [ModelRetry(str(e))], nothing else is
    caught. *)
Definition get_outbound_links (args : arguments) : run (list string) := λ p,
  match cache p !! args with
  | Some links => (Return links, p)
  | None =>
      let page_name := page_name_of args in
      match rich_print page_name with
      | Some message => (Raise (MarkupError message), p)
      | None =>
          let queried := fetched p ++ [args] in
          match w page_name with
          | Links links =>
              (Return links,
               {| cache := <[args := links]> (cache p); fetched := queried |})
          | PageError message =>
              (Raise (ModelRetry message),
               {| cache := cache p; fetched := queried |})
          | OtherError name =>
              (Raise (Escaped name), {| cache := cache p; fetched := queried |})
          end
      end
  end.

(** The inner loop:
    [for linked_title in links: g.add_edge(current_page_title, linked_title)]. *)
Definition add_links (current_page_title : string) (links : list string)
    (g : DiGraph) : DiGraph :=
  foldl (λ g linked_title, add_edge current_page_title linked_title g) g links.

(** The outer loop over [data.pages_by_title], in path order and without
    removing repeated titles; the title is passed by position. *)
Fixpoint link_graph (pages : list string) (g : DiGraph) : run DiGraph :=
  match pages with
  | [] => mret g
  | current_page_title :: rest =>
      links ← get_outbound_links (Positional current_page_title);
      link_graph rest (add_links current_page_title links g)
  end.

(** [@WikiracingAgent.result_validator def validate_path(data)]. *)
Definition validate_path (data : ResultType) : run ResultType :=
  match data with
  | PathFoundResult pages_by_title =>
      g ← link_graph pages_by_title empty_graph;
      simple ← lift (is_simple_path g pages_by_title);
      if (simple : bool) then mret data
      else raise (ModelRetry "Path is not valid")
  | NoPathFoundResult => mret data
  end.

(** One call, for its effect on the process: a validation, or a call of
    the tool, which passes the title by keyword.  An exception leaves the
    notebook's kernel (and the cache) alive, so the state is carried on
    whatever the outcome. *)
Definition step (p : process) (c : call) : process :=
  match c with
  | Validate data => (validate_path data p).2
  | Lookup page_name => (get_outbound_links (Keyword page_name) p).2
  end.

(** The process after a sequence of calls, started with an empty cache. *)
Definition after (history : list call) : process :=
  foldl step fresh history.
End Notebook.

(** * Scenarios *)

(** The pages of the specification's scenarios, with two more: one
    without links, and one that links to a page that does not exist. *)
Definition scenario_links : wikipedia := λ title,
  if decide (title = "Lindsay Lohan") then Links ["Donald Trump"]
  else if decide (title = "Donald Trump") then Links ["Barack Obama"]
  else if decide (title = "Barack Obama") then Links ["Donald Trump"; "Joe Biden"]
  else if decide (title = "A") then Links ["B"]
  else if decide (title = "B") then Links ["A"]
  else if decide (title = "Stub") then Links []
  else if decide (title = "Wanted") then Links ["Nonexistent Page"]
  else PageError ("no page matches " +:+ title).

(** The same encyclopedia, where the title "Mercury" makes the client raise
    a [DisambiguationError]. *)
Definition scenario : wikipedia := λ title,
  if decide (title = "Mercury") then OtherError "DisambiguationError"
  else scenario_links title.

(** The console for the titles of the scenarios: the closing tag of the
    title "[/b]" matches no open tag, and the 29 characters of the line
    come before it; no other title used below has a bracket, and a line
    without a bracket is printed as it is. *)
Definition scenario_console : console := λ title,
  if decide (title = "[/b]")
  then Some "closing tag '[/b]' at position 29 doesn't match any open tag"
  else None.

(** * Vocabulary of the properties *)

(** [v in G[u]], with no exception: the edge [(u, v)] is in the graph. *)
Definition edge (g : DiGraph) (u v : string) : Prop :=
  ∃ nbrs, _succ g !! u = Some nbrs ∧ v ∈ nbrs.

(** networkx keeps one adjacency dictionary per node. *)
Definition graph_ok (g : DiGraph) : Prop :=
  ∀ n, n ∈ _node g ↔ is_Some (_succ g !! n).

(** Every stored list is what Wikipedia returns for the title of its key,
    and the line of that title was printed. *)
Definition sound (c : console) (w : wikipedia) (p : process) : Prop :=
  ∀ args links, cache p !! args = Some links →
    c (page_name_of args) = None ∧ w (page_name_of args) = Links links.

(** What a lookup completes with, whatever the cache holds. *)
Definition lookup_of (c : console) (w : wikipedia) (title : string)
    : completion (list string) :=
  match c title with
  | Some message => Raise (MarkupError message)
  | None =>
      match w title with
      | Links links => Return links
      | PageError message => Raise (ModelRetry message)
      | OtherError name => Raise (Escaped name)
      end
  end.

(** What the outer loop of [validate_path] completes with. *)
Fixpoint graph_of (c : console) (w : wikipedia) (pages : list string)
    (g : DiGraph) : completion DiGraph :=
  match pages with
  | [] => Return g
  | title :: rest =>
      match lookup_of c w title with
      | Return links => graph_of c w rest (add_links title links g)
      | Raise e => Raise e
      end
  end.

(** What [validate_path] completes with. *)
Definition verdict (c : console) (w : wikipedia) (data : ResultType)
    : completion ResultType :=
  match data with
  | PathFoundResult pages =>
      match graph_of c w pages empty_graph with
      | Return g =>
          match is_simple_path g pages with
          | Return true => Return data
          | Return false => Raise (ModelRetry "Path is not valid")
          | Raise e => Raise e
          end
      | Raise e => Raise e
      end
  | NoPathFoundResult => Return data
  end.

(** [title] resolves: Wikipedia returns a link list for it. *)
Definition resolves (w : wikipedia) (title : string) : Prop :=
  ∃ links, w title = Links links.

(** [v] is in the link list Wikipedia returns for [u]. *)
Definition has_link (w : wikipedia) (u v : string) : Prop :=
  ∃ links, w u = Links links ∧ v ∈ links.

(** The lookup of [title] returns: its line is printed and it resolves. *)
Definition answers (c : console) (w : wikipedia) (title : string) : Prop :=
  c title = None ∧ resolves w title.

(** From [p] to [p']: the entries of the cache are kept, and the queries
    made in between are for arguments among [asked] that had no entry in
    [p]. *)
Definition grows (asked : list arguments) (p p' : process) : Prop :=
  cache p ⊆ cache p'
  ∧ ∃ new, fetched p' = fetched p ++ new
           ∧ ∀ args, args ∈ new → args ∈ asked ∧ cache p !! args = None.

(** The titles of a result: those of its path, none for "no path". *)
Definition titles (data : ResultType) : list string :=
  match data with
  | PathFoundResult pages_by_title => pages_by_title
  | NoPathFoundResult => []
  end.

(** The lookups a call can make, with their arguments. *)
Definition asked (c : call) : list arguments :=
  match c with
  | Validate data => Positional <$> titles data
  | Lookup page_name => [Keyword page_name]
  end.

(** How many times Wikipedia was queried by a call with these arguments. *)
Definition times (args : arguments) (log : list arguments) : nat :=
  length (filter (λ a, a = args) log).


(** Arguments whose title resolves made one query if they have a cache
    entry and none otherwise. *)
Definition tally (w : wikipedia) (p : process) : Prop :=
  ∀ args, resolves w (page_name_of args) →
    times args (fetched p)
    = match cache p !! args with Some _ => 1 | None => 0 end.

(** [P] is a simple path of the encyclopedia as the validator sees it: not
    empty, no title twice, the line of every title is printed, every title
    resolves, every title is followed by one of its links, and a path of
    one title has a title with links. *)
Definition simple_path_in (c : console) (w : wikipedia) (P : list string) : Prop :=
  P ≠ []
  ∧ NoDup P
  ∧ (∀ t, t ∈ P → c t = None)
  ∧ (∀ t, t ∈ P → resolves w t)
  ∧ (∀ i u v, P !! i = Some u → P !! S i = Some v → has_link w u v)
  ∧ (∀ x, P = [x] → w x ≠ Links []).

(** No lookup of a title of [P] raises anything but the [ModelRetry] made
    from a [PageError]: every line is printed and the client raises no
    other exception. *)
Definition handled (c : console) (w : wikipedia) (P : list string) : Prop :=
  ∀ t, t ∈ P → c t = None ∧ ∀ name, w t ≠ OtherError name.

(** Two encyclopedias that differ at most in the order and the repetitions
    of the links they list. *)
Definition same_links (w w' : wikipedia) : Prop :=
  ∀ title,
    match w title, w' title with
    | Links links, Links links' => ∀ t, t ∈ links ↔ t ∈ links'
    | PageError message, PageError message' => message = message'
    | OtherError name, OtherError name' => name = name'
    | _, _ => False
    end.

(** Settles a decidable statement about concrete data by evaluating its
    decision procedure. *)
Ltac by_evaluation := apply (bool_decide_unpack _); vm_compute; exact I.

(** * Facts about the graph operations *)

Lemma graph_ok_empty : graph_ok empty_graph.
Proof. intros n. simpl. rewrite lookup_empty. split; [set_solver | by intros [? ?]]. Qed.

Lemma edge_empty u v : ¬ edge empty_graph u v.
Proof. intros (nbrs & H & _). simpl in H. by rewrite lookup_empty in H. Qed.

Lemma ensure_node_ok n g : graph_ok g → graph_ok (ensure_node n g).
Proof.
  intros Hg m. unfold ensure_node. destruct (_succ g !! n) eqn:E; [apply Hg|].
  simpl. rewrite elem_of_union, elem_of_singleton, (Hg m).
  destruct (decide (n = m)) as [->|Hne].
  - rewrite lookup_insert_eq. naive_solver.
  - rewrite lookup_insert_ne by done. naive_solver.
Qed.

Lemma ensure_node_is_node n g m :
  is_Some (_succ (ensure_node n g) !! m) ↔ m = n ∨ is_Some (_succ g !! m).
Proof.
  unfold ensure_node. destruct (_succ g !! n) eqn:E.
  - split; [by right|]. intros [->|H]; [by rewrite E|done].
  - simpl. destruct (decide (n = m)) as [->|Hne].
    + rewrite lookup_insert_eq. naive_solver.
    + rewrite lookup_insert_ne by done. naive_solver.
Qed.

Lemma ensure_node_edge n g u v : edge (ensure_node n g) u v ↔ edge g u v.
Proof.
  unfold edge, ensure_node. destruct (_succ g !! n) eqn:E; [done|].
  simpl. destruct (decide (n = u)) as [->|Hne].
  - rewrite lookup_insert_eq, E. split; intros (nbrs & H & Hv); simplify_eq; set_solver.
  - by rewrite lookup_insert_ne.
Qed.

Lemma add_edge_ok u v g : graph_ok g → graph_ok (add_edge u v g).
Proof.
  intros Hg m. unfold add_edge. simpl.
  rewrite (ensure_node_ok v _ (ensure_node_ok u _ Hg) m).
  rewrite lookup_alter. case_decide; [subst|done].
  by rewrite fmap_is_Some.
Qed.

Lemma add_edge_is_node u v g m :
  is_Some (_succ (add_edge u v g) !! m) ↔ m = u ∨ m = v ∨ is_Some (_succ g !! m).
Proof.
  unfold add_edge. simpl. rewrite lookup_alter.
  case_decide; [subst; rewrite fmap_is_Some|];
    rewrite !ensure_node_is_node; naive_solver.
Qed.

Lemma add_edge_edge u v g a b :
  edge (add_edge u v g) a b ↔ (a = u ∧ b = v) ∨ edge g a b.
Proof.
  rewrite <- (ensure_node_edge u g a b), <- (ensure_node_edge v (ensure_node u g) a b).
  pose proof (proj2 (ensure_node_is_node v (ensure_node u g) u)) as Hu.
  rewrite ensure_node_is_node in Hu.
  destruct Hu as [nbrs Hn]; [by right; left|].
  unfold edge, add_edge. simpl. rewrite lookup_alter.
  case_decide as Hd; [subst a|naive_solver].
  rewrite Hn. simpl. split.
  - intros (s & Hs & Hb). simplify_eq. apply elem_of_union in Hb as [Hb|Hb].
    + left. set_solver.
    + right. eauto.
  - intros [[_ ->]|(s & Hs & Hb)].
    + eexists; split; [done|set_solver].
    + simplify_eq. eexists; split; [done|set_solver].
Qed.

Lemma add_links_cons u v links g :
  add_links u (v :: links) g = add_links u links (add_edge u v g).
Proof. reflexivity. Qed.

Lemma add_links_ok u links g : graph_ok g → graph_ok (add_links u links g).
Proof.
  revert g. induction links as [|v links IH]; intros g Hg; [done|].
  apply IH. by apply add_edge_ok.
Qed.

Lemma add_links_is_node u links g m :
  is_Some (_succ (add_links u links g) !! m) ↔
  (links ≠ [] ∧ (m = u ∨ m ∈ links)) ∨ is_Some (_succ g !! m).
Proof.
  revert g. induction links as [|v links IH]; intros g.
  - simpl. naive_solver.
  - rewrite add_links_cons, IH, add_edge_is_node, elem_of_cons.
    assert (v :: links ≠ []) by done.
    assert (m ∈ links → links ≠ []) by (intros Hm ->; by apply elem_of_nil in Hm).
    tauto.
Qed.

Lemma add_links_edge u links g a b :
  edge (add_links u links g) a b ↔ (a = u ∧ b ∈ links) ∨ edge g a b.
Proof.
  revert g. induction links as [|v links IH]; intros g.
  - simpl. split; [by right|]. intros [[_ H]|H]; [by apply elem_of_nil in H|done].
  - rewrite add_links_cons, IH, add_edge_edge, elem_of_cons. naive_solver.
Qed.

(** * Facts about [is_simple_path] *)

Lemma size_list_to_set_le (nodes : list string) :
  size (list_to_set nodes : gset string) ≤ length nodes.
Proof.
  induction nodes as [|n nodes IH].
  - by rewrite list_to_set_nil, size_empty.
  - rewrite list_to_set_cons, size_union_alt, size_singleton.
    assert (size ((list_to_set nodes : gset string) ∖ {[n]})
            ≤ size (list_to_set nodes : gset string))
      by (apply subseteq_size; set_solver).
    simpl. lia.
Qed.

Lemma size_list_to_set_NoDup (nodes : list string) :
  size (list_to_set nodes : gset string) = length nodes ↔ NoDup nodes.
Proof.
  split; [|apply size_list_to_set].
  induction nodes as [|n nodes IH]; intros Hsize; [constructor|].
  rewrite list_to_set_cons in Hsize. simpl length in Hsize.
  pose proof (size_list_to_set_le nodes) as Hle.
  destruct (decide (n ∈ nodes)) as [Hin|Hout].
  - assert ({[n]} ∪ list_to_set nodes = (list_to_set nodes : gset string)) as Heq
      by set_solver.
    rewrite Heq in Hsize. lia.
  - rewrite size_union, size_singleton in Hsize by set_solver.
    constructor; [done|]. apply IH. lia.
Qed.

Lemma forallb_contains g (nodes : list string) :
  forallb (contains g) nodes = true ↔ ∀ n, n ∈ nodes → n ∈ _node g.
Proof.
  rewrite forallb_forall. unfold contains. setoid_rewrite bool_decide_eq_true.
  by setoid_rewrite list_elem_of_In.
Qed.

Lemma all_adjacent_true g (nodes : list string) :
  (∀ i u v, nodes !! i = Some u → nodes !! S i = Some v → edge g u v) →
  all_adjacent g nodes = Return true.
Proof.
  induction nodes as [|u rest IH]; intros Hch; [done|].
  destruct rest as [|v rest]; [done|].
  destruct (Hch 0 u v) as (nbrs & Hn & Hv); [done..|].
  simpl. rewrite Hn, bool_decide_eq_true_2 by done.
  apply IH. intros i a b Ha Hb. by apply (Hch (S i)).
Qed.

Lemma all_adjacent_false g (nodes : list string) i u v :
  (∀ n, n ∈ nodes → is_Some (_succ g !! n)) →
  nodes !! i = Some u → nodes !! S i = Some v → ¬ edge g u v →
  all_adjacent g nodes = Return false.
Proof.
  revert i. induction nodes as [|a rest IH]; intros i Hnodes Hu Hv Hno; [done|].
  destruct rest as [|b rest]; [done|].
  destruct (Hnodes a) as [nbrs Hn]; [by left|].
  change (all_adjacent g (a :: b :: rest)) with
    (match _succ g !! a with
     | None => Raise (KeyError a)
     | Some nbrs => if bool_decide (b ∈ nbrs) then all_adjacent g (b :: rest)
                    else Return false
     end).
  rewrite Hn. case_bool_decide as Hb; [|done].
  destruct i as [|i].
  - simpl in Hu, Hv. simplify_eq. destruct Hno. by exists nbrs.
  - apply (IH i); [|done..]. intros n Hin. apply Hnodes. by right.
Qed.

Lemma is_simple_path_true g (nodes : list string) :
  nodes ≠ [] →
  (∀ n, n ∈ nodes → n ∈ _node g) →
  NoDup nodes →
  (∀ i u v, nodes !! i = Some u → nodes !! S i = Some v → edge g u v) →
  is_simple_path g nodes = Return true.
Proof.
  intros Hne Hin Hnd Hch. destruct nodes as [|a [|b rest]]; [done| |].
  - simpl. unfold contains. rewrite bool_decide_eq_true_2; [done|]. apply Hin. by left.
  - unfold is_simple_path.
    rewrite (proj2 (forallb_contains g _) Hin). simpl negb. cbv iota.
    rewrite bool_decide_eq_false_2.
    + by apply all_adjacent_true.
    + intros Hsz. apply Hsz. by apply size_list_to_set_NoDup.
Qed.

Lemma is_simple_path_repeated g (nodes : list string) :
  ¬ NoDup nodes → is_simple_path g nodes = Return false.
Proof.
  intros Hnd. destruct nodes as [|a [|b rest]]; [done| |].
  - destruct Hnd. apply NoDup_singleton.
  - unfold is_simple_path. destruct (negb _); [done|].
    rewrite bool_decide_eq_true_2; [done|]. by rewrite size_list_to_set_NoDup.
Qed.

Lemma is_simple_path_gap g (nodes : list string) i u v :
  graph_ok g →
  nodes !! i = Some u → nodes !! S i = Some v → ¬ edge g u v →
  is_simple_path g nodes = Return false.
Proof.
  intros Hg Hu Hv Hno. destruct nodes as [|a [|b rest]]; [done| |].
  - by destruct i.
  - unfold is_simple_path.
    destruct (forallb _ _) eqn:Hall; [|done]. simpl negb. cbv iota.
    case_bool_decide; [done|].
    apply (all_adjacent_false g _ i u v); [|done..].
    intros n Hn. apply Hg. by apply (proj1 (forallb_contains g _) Hall).
Qed.

(** [G[u]] is only reached for nodes of the graph: [is_simple_path] never
    raises on a graph built with [add_edge]. *)
Lemma is_simple_path_total g (nodes : list string) :
  graph_ok g → ∃ b, is_simple_path g nodes = Return b.
Proof.
  intros Hg. destruct nodes as [|a [|b rest]]; [by eexists..|].
  unfold is_simple_path.
  destruct (forallb _ _) eqn:Hall; [|by eexists]. simpl negb. cbv iota.
  case_bool_decide; [by eexists|].
  assert (∀ n, n ∈ a :: b :: rest → is_Some (_succ g !! n)) as Hnodes.
  { intros n Hn. apply Hg. by apply (proj1 (forallb_contains g _) Hall). }
  clear Hall. generalize dependent (a :: b :: rest). clear a b rest.
  intros nodes _ Hnodes. induction nodes as [|a rest IH]; [by eexists|].
  destruct rest as [|b rest]; [by eexists|].
  destruct (Hnodes a) as [nbrs Hn]; [by left|].
  change (all_adjacent g (a :: b :: rest)) with
    (match _succ g !! a with
     | None => Raise (KeyError a)
     | Some nbrs => if bool_decide (b ∈ nbrs) then all_adjacent g (b :: rest)
                    else Return false
     end).
  rewrite Hn. case_bool_decide; [|by eexists].
  apply IH. intros n Hin. apply Hnodes. by right.
Qed.

Lemma all_adjacent_true_inv g (nodes : list string) :
  all_adjacent g nodes = Return true →
  ∀ i u v, nodes !! i = Some u → nodes !! S i = Some v → edge g u v.
Proof.
  induction nodes as [|a rest IH]; intros Hall i u v Hu Hv; [done|].
  destruct rest as [|b rest]; [by destruct i|].
  change (all_adjacent g (a :: b :: rest)) with
    (match _succ g !! a with
     | None => Raise (KeyError a)
     | Some nbrs => if bool_decide (b ∈ nbrs) then all_adjacent g (b :: rest)
                    else Return false
     end) in Hall.
  destruct (_succ g !! a) as [nbrs|] eqn:Hn; [|done].
  case_bool_decide as Hb; [|done].
  destruct i as [|i]; simpl in Hu, Hv.
  - simplify_eq. by exists nbrs.
  - by apply (IH Hall i).
Qed.

Lemma is_simple_path_true_inv g (nodes : list string) :
  is_simple_path g nodes = Return true →
  nodes ≠ []
  ∧ (∀ n, n ∈ nodes → n ∈ _node g)
  ∧ NoDup nodes
  ∧ (∀ i u v, nodes !! i = Some u → nodes !! S i = Some v → edge g u v).
Proof.
  intros Hs. destruct nodes as [|a [|b rest]]; [done| |].
  - simpl in Hs. injection Hs as Hc. apply bool_decide_eq_true in Hc.
    split; [done|]. split; [by intros n ->%list_elem_of_singleton|].
    split; [apply NoDup_singleton|]. by intros [|i] u v Hu Hv.
  - unfold is_simple_path in Hs.
    destruct (forallb _ _) eqn:Hall; [|done]. simpl negb in Hs. cbv iota in Hs.
    case_bool_decide as Hsz; [done|].
    split; [done|]. split; [by apply forallb_contains|].
    split; [|by apply all_adjacent_true_inv].
    by apply size_list_to_set_NoDup.
Qed.

(** * The cache agrees with the encyclopedia *)

Lemma sound_fresh c w : sound c w fresh.
Proof. intros a l H. simpl in H. by rewrite lookup_empty in H. Qed.

Lemma get_outbound_links_sound c w args p :
  sound c w p →
  (get_outbound_links c w args p).1 = lookup_of c w (page_name_of args)
  ∧ sound c w (get_outbound_links c w args p).2.
Proof.
  intros Hp. unfold get_outbound_links, lookup_of.
  destruct (cache p !! args) as [links|] eqn:Hc.
  - destruct (Hp _ _ Hc) as [Hprint Hw]. by rewrite Hprint, Hw.
  - destruct (c (page_name_of args)) as [message|] eqn:Hprint; [done|].
    destruct (w (page_name_of args)) as [links|message|name] eqn:Hw; simpl;
      (split; [done|]); intros a l Ha; simpl in Ha; [|by apply Hp..].
    destruct (decide (args = a)) as [<-|Hne].
    + rewrite lookup_insert_eq in Ha. by simplify_eq.
    + rewrite lookup_insert_ne in Ha by done. by apply Hp.
Qed.

Lemma link_graph_sound c w pages g p :
  sound c w p →
  (link_graph c w pages g p).1 = graph_of c w pages g
  ∧ sound c w (link_graph c w pages g p).2.
Proof.
  revert g p. induction pages as [|title rest IH]; intros g p Hp; [done|].
  destruct (get_outbound_links_sound c w (Positional title) p Hp) as [Hr Hs].
  simpl in Hr. simpl. unfold mbind, run_bind. rewrite <- Hr.
  destruct (get_outbound_links c w (Positional title) p) as [[links|e] p'];
    simpl in *; [|done].
  by apply IH.
Qed.

Lemma validate_path_sound c w data p :
  sound c w p →
  (validate_path c w data p).1 = verdict c w data
  ∧ sound c w (validate_path c w data p).2.
Proof.
  intros Hp. destruct data as [pages|]; [|done].
  destruct (link_graph_sound c w pages empty_graph p Hp) as [Hr Hs].
  unfold validate_path, verdict, mbind, run_bind. rewrite <- Hr.
  destruct (link_graph c w pages empty_graph p) as [[g|e] p']; simpl in *; [|done].
  unfold lift. by destruct (is_simple_path g pages) as [[|]|e].
Qed.

Lemma after_snoc c w history c0 :
  after c w (history ++ [c0]) = step c w (after c w history) c0.
Proof. unfold after. by rewrite foldl_app. Qed.

Lemma after_Validate c w history data :
  after c w (history ++ [Validate data])
  = (validate_path c w data (after c w history)).2.
Proof. by rewrite after_snoc. Qed.

Lemma step_sound c w p c0 : sound c w p → sound c w (step c w p c0).
Proof.
  intros Hp. destruct c0 as [data|title]; simpl.
  - by apply validate_path_sound.
  - by apply get_outbound_links_sound.
Qed.

Lemma after_sound c w history : sound c w (after c w history).
Proof.
  induction history as [|c0 history IH] using rev_ind; [apply sound_fresh|].
  rewrite after_snoc. by apply step_sound.
Qed.

(** In every state the process can reach, a validation completes with
    [verdict]. *)
Lemma validate_path_after c w history data :
  (validate_path c w data (after c w history)).1 = verdict c w data.
Proof. apply validate_path_sound, after_sound. Qed.

(** * What the assembled graph contains *)

Lemma lookup_of_Return c w title links :
  lookup_of c w title = Return links ↔ c title = None ∧ w title = Links links.
Proof.
  unfold lookup_of. destruct (c title) as [m|]; [naive_solver|].
  destruct (w title); naive_solver.
Qed.

Lemma lookup_of_answers c w title :
  answers c w title ↔ ∃ links, lookup_of c w title = Return links.
Proof.
  unfold answers, resolves. setoid_rewrite lookup_of_Return. naive_solver.
Qed.

Lemma graph_of_Return c w pages g g' :
  graph_of c w pages g = Return g' →
  graph_ok g →
  graph_ok g'
  ∧ (∀ t, t ∈ pages → answers c w t)
  ∧ (∀ a b, edge g' a b ↔ edge g a b ∨ (a ∈ pages ∧ has_link w a b))
  ∧ (∀ m, is_Some (_succ g' !! m) ↔
          is_Some (_succ g !! m)
          ∨ ∃ a links, a ∈ pages ∧ w a = Links links ∧ links ≠ []
                       ∧ (m = a ∨ m ∈ links)).
Proof.
  revert g. induction pages as [|title rest IH]; intros g Hrun Hg; simpl in Hrun.
  - simplify_eq. split; [done|]. split; [by intros t Ht%elem_of_nil|]. split.
    + intros a b. split; [by left|].
      intros [H|(Ha%elem_of_nil & _)]; done.
    + intros m. split; [by left|].
      intros [H|(a & l & Ha%elem_of_nil & _)]; done.
  - destruct (lookup_of c w title) as [links|e] eqn:Hl; [|done].
    apply lookup_of_Return in Hl as [Hprint Hw].
    destruct (IH _ Hrun (add_links_ok title links g Hg)) as (Hok & Hres & Hedge & Hnode).
    split; [done|]. split; [|split].
    + intros t [->|Ht]%elem_of_cons; [|by apply Hres]. split; [done|by exists links].
    + intros a b. rewrite Hedge, add_links_edge. unfold has_link.
      setoid_rewrite elem_of_cons. split.
      * intros [[[-> Hb]|He]|(Ha & l & Hl & Hb)]; [right|by left|right]; naive_solver.
      * intros [He|([->|Ha] & l & Hl & Hb)]; [by left; right| |by right; eauto].
        left; left. split; [done|]. congruence.
    + intros m. rewrite Hnode, add_links_is_node.
      setoid_rewrite elem_of_cons. split.
      * intros [[(Hne & Hm)|Hs]|(a & l & Ha & Hl & Hne & Hm)]; [right|by left|right].
        -- exists title, links. eauto.
        -- exists a, l. eauto.
      * intros [Hs|(a & l & [->|Ha] & Hl & Hne & Hm)]; [by left; right| |].
        -- left; left. assert (l = links) as -> by congruence. done.
        -- right. exists a, l. eauto.
Qed.

Lemma graph_of_resolved c w pages g :
  (∀ t, t ∈ pages → answers c w t) → ∃ g', graph_of c w pages g = Return g'.
Proof.
  revert g. induction pages as [|title rest IH]; intros g Hres; simpl; [by eexists|].
  destruct (proj1 (lookup_of_answers c w title)) as [links Hl];
    [apply Hres; by left|].
  rewrite Hl. apply IH. intros t Ht. apply Hres. by right.
Qed.

(** The loop stops at the first title whose lookup raises, with that
    exception. *)
Lemma graph_of_Raise c w pages g e :
  graph_of c w pages g = Raise e →
  ∃ before title rest,
    pages = before ++ title :: rest
    ∧ (∀ t, t ∈ before → answers c w t)
    ∧ lookup_of c w title = Raise e.
Proof.
  revert g. induction pages as [|title rest IH]; intros g Hrun; simpl in Hrun; [done|].
  destruct (lookup_of c w title) as [links|e'] eqn:Hl.
  - destruct (IH _ Hrun) as (before & t' & rest' & -> & Hres & Hraise).
    exists (title :: before), t', rest'. split; [done|]. split; [|done].
    intros t [->|Ht]%elem_of_cons; [|by apply Hres].
    apply lookup_of_answers. by exists links.
  - simplify_eq. exists [], title, rest. split; [done|]. split; [|done].
    by intros t Ht%elem_of_nil.
Qed.

(** Every path is all answers, or has a first title whose lookup raises. *)
Lemma first_failure c w (pages : list string) :
  (∀ t, t ∈ pages → answers c w t)
  ∨ ∃ before title rest e,
      pages = before ++ title :: rest
      ∧ (∀ t, t ∈ before → answers c w t)
      ∧ lookup_of c w title = Raise e.
Proof.
  destruct (graph_of c w pages empty_graph) as [g|e] eqn:Hrun.
  - left. by apply (graph_of_Return c w pages _ g Hrun graph_ok_empty).
  - right. apply graph_of_Raise in Hrun as (before & title & rest & H).
    by exists before, title, rest, e.
Qed.

(** * The effects of a validation: queries and cache entries *)

Lemma grows_refl asked p : grows asked p p.
Proof.
  split; [done|]. exists []. split; [by rewrite app_nil_r|].
  by intros t Ht%elem_of_nil.
Qed.

Lemma grows_trans asked p1 p2 p3 :
  grows asked p1 p2 → grows asked p2 p3 → grows asked p1 p3.
Proof.
  intros (Hc1 & new1 & Hf1 & Hn1) (Hc2 & new2 & Hf2 & Hn2).
  split; [by etrans|]. exists (new1 ++ new2).
  split; [by rewrite Hf2, Hf1, app_assoc|].
  intros t [Ht|Ht]%elem_of_app; [by apply Hn1|].
  destruct (Hn2 t Ht) as [Hin Hnone]. split; [done|].
  destruct (cache p1 !! t) as [l|] eqn:Hl; [|done].
  by rewrite (lookup_weaken _ _ _ _ Hl Hc1) in Hnone.
Qed.

Lemma grows_weaken asked asked' p p' :
  (∀ t, t ∈ asked → t ∈ asked') → grows asked p p' → grows asked' p p'.
Proof.
  intros Hsub (Hc & new & Hf & Hn). split; [done|]. exists new. split; [done|].
  intros t Ht. destruct (Hn t Ht). auto.
Qed.

Lemma get_outbound_links_grows c w args p :
  grows [args] p (get_outbound_links c w args p).2.
Proof.
  unfold get_outbound_links. destruct (cache p !! args) as [l|] eqn:Hc.
  - apply grows_refl.
  - destruct (c (page_name_of args)); [apply grows_refl|].
    assert (∀ t, t ∈ [args] → t ∈ [args] ∧ cache p !! t = None) as Hnew.
    { intros t Ht. split; [done|]. apply list_elem_of_singleton in Ht. by subst. }
    destruct (w (page_name_of args)); simpl;
      (split; [|by exists [args]]); simpl; [|done..].
    by apply insert_subseteq.
Qed.

Lemma link_graph_grows c w pages g p :
  grows (Positional <$> pages) p (link_graph c w pages g p).2.
Proof.
  revert g p. induction pages as [|title rest IH]; intros g p; [apply grows_refl|].
  pose proof (get_outbound_links_grows c w (Positional title) p) as Hstep.
  simpl. unfold mbind, run_bind.
  destruct (get_outbound_links c w (Positional title) p) as [[links|e] p1];
    simpl in *.
  - eapply grows_trans.
    + eapply grows_weaken; [|exact Hstep]. intros t Ht. set_solver.
    + eapply grows_weaken; [|apply IH]. intros t Ht. by right.
  - eapply grows_weaken; [|exact Hstep]. intros t Ht. set_solver.
Qed.

(** The effect of a validation on the process is that of its loop. *)
Lemma validate_path_state c w (P : list string) p :
  (validate_path c w (PathFoundResult P) p).2 = (link_graph c w P empty_graph p).2.
Proof.
  unfold validate_path, mbind, run_bind.
  destruct (link_graph c w P empty_graph p) as [[g|e] p1]; [|done].
  unfold lift. by destruct (is_simple_path g P) as [[|]|e'].
Qed.

Lemma validate_path_grows c w data p :
  grows (Positional <$> titles data) p (validate_path c w data p).2.
Proof.
  destruct data as [pages|]; [|apply grows_refl].
  rewrite validate_path_state. apply link_graph_grows.
Qed.

Lemma step_grows c w p c0 : grows (asked c0) p (step c w p c0).
Proof.
  destruct c0 as [data|title]; simpl.
  - apply validate_path_grows.
  - apply get_outbound_links_grows.
Qed.

Lemma after_grows c w history more :
  grows (concat (asked <$> more)) (after c w history) (after c w (history ++ more)).
Proof.
  induction more as [|c0 more IH] using rev_ind.
  - rewrite app_nil_r. apply grows_refl.
  - rewrite app_assoc, after_snoc, fmap_app, concat_app.
    eapply grows_trans.
    + eapply grows_weaken; [|exact IH]. intros t Ht. apply elem_of_app. by left.
    + eapply grows_weaken; [|apply step_grows].
      intros t Ht. apply elem_of_app. right. simpl. by rewrite app_nil_r.
Qed.

Lemma times_app args log1 log2 :
  times args (log1 ++ log2) = times args log1 + times args log2.
Proof. unfold times. by rewrite filter_app, length_app. Qed.

Lemma times_cons args a log :
  times args (a :: log) = (if decide (a = args) then 1 else 0) + times args log.
Proof.
  unfold times. case_decide; [by rewrite filter_cons_True|by rewrite filter_cons_False].
Qed.

Lemma times_absent args log : args ∉ log → times args log = 0.
Proof.
  intros Hout. unfold times. induction log as [|t log IH]; [done|].
  apply not_elem_of_cons in Hout as [Hne Hout].
  rewrite filter_cons_False by done. by apply IH.
Qed.

Lemma times_present args log : args ∈ log → 1 ≤ times args log.
Proof.
  induction log as [|t log IH]; [by intros ?%elem_of_nil|].
  rewrite times_cons. intros [->|Hin]%elem_of_cons.
  - rewrite decide_True by done. lia.
  - specialize (IH Hin). lia.
Qed.

Lemma NoDup_times log : (∀ args, times args log ≤ 1) → NoDup log.
Proof.
  induction log as [|t log IH]; intros Hle; [constructor|].
  constructor.
  - intros Hin%times_present. specialize (Hle t). rewrite times_cons in Hle.
    rewrite decide_True in Hle by done. lia.
  - apply IH. intros args. specialize (Hle args). rewrite times_cons in Hle. lia.
Qed.


Lemma get_outbound_links_tally c w args p :
  tally w p → tally w (get_outbound_links c w args p).2.
Proof.
  intros Hp a Ha. specialize (Hp a Ha). unfold get_outbound_links.
  destruct (cache p !! args) as [l|] eqn:Hc; [done|].
  destruct (c (page_name_of args)); [done|].
  assert (times a (fetched p ++ [args]) =
          times a (fetched p) + (if decide (args = a) then 1 else 0)) as Hlog.
  { rewrite times_app. f_equal. rewrite times_cons. unfold times. simpl. lia. }
  destruct (w (page_name_of args)) as [links|message|name] eqn:Hw; simpl;
    rewrite Hlog, Hp.
  - case_decide as Hd; [subst; by rewrite Hc, lookup_insert_eq|].
    rewrite lookup_insert_ne by done. lia.
  - case_decide as Hd; [|lia]. subst. destruct Ha as [l Hl]. congruence.
  - case_decide as Hd; [|lia]. subst. destruct Ha as [l Hl]. congruence.
Qed.

Lemma link_graph_tally c w pages g p :
  tally w p → tally w (link_graph c w pages g p).2.
Proof.
  revert g p. induction pages as [|title rest IH]; intros g p Hp; [done|].
  pose proof (get_outbound_links_tally c w (Positional title) p Hp) as Hstep.
  simpl. unfold mbind, run_bind.
  destruct (get_outbound_links c w (Positional title) p) as [[links|e] p1];
    simpl in *; [|done].
  by apply IH.
Qed.

Lemma validate_path_tally c w data p :
  tally w p → tally w (validate_path c w data p).2.
Proof.
  intros Hp. destruct data as [pages|]; [|done].
  rewrite validate_path_state. by apply link_graph_tally.
Qed.

Lemma after_tally c w history : tally w (after c w history).
Proof.
  induction history as [|c0 history IH] using rev_ind.
  - intros t _. simpl. by rewrite lookup_empty.
  - rewrite after_snoc. destruct c0 as [data|title]; simpl.
    + by apply validate_path_tally.
    + by apply get_outbound_links_tally.
Qed.

(** * Lookups and the cache *)

Lemma get_outbound_links_hit c w args p links :
  cache p !! args = Some links → get_outbound_links c w args p = (Return links, p).
Proof. intros Hc. unfold get_outbound_links. by rewrite Hc. Qed.

Lemma get_outbound_links_Return_cached c w args p links :
  (get_outbound_links c w args p).1 = Return links →
  cache (get_outbound_links c w args p).2 !! args = Some links.
Proof.
  unfold get_outbound_links. destruct (cache p !! args) as [l|] eqn:Hc; simpl.
  - by intros [= <-].
  - destruct (c (page_name_of args)); [done|].
    destruct (w (page_name_of args)); simpl; intros [= <-]. apply lookup_insert_eq.
Qed.

(** A lookup whose line is not printed changes nothing. *)
Lemma get_outbound_links_unprinted c w args p message :
  cache p !! args = None → c (page_name_of args) = Some message →
  get_outbound_links c w args p = (Raise (MarkupError message), p).
Proof. intros Hc Hprint. unfold get_outbound_links. by rewrite Hc, Hprint. Qed.

Lemma get_outbound_links_queries c w args p :
  ∃ new, fetched (get_outbound_links c w args p).2 = fetched p ++ new
         ∧ length new ≤ 1.
Proof.
  unfold get_outbound_links.
  assert (∃ new, fetched p = fetched p ++ new ∧ length new ≤ 1) as Hnone.
  { exists []. rewrite app_nil_r. split; [done|simpl; lia]. }
  destruct (cache p !! args) as [l|]; [done|].
  destruct (c (page_name_of args)); [done|].
  exists [args]. destruct (w (page_name_of args)); simpl; (split; [done|lia]).
Qed.

Lemma link_graph_queries c w pages g p :
  ∃ new, fetched (link_graph c w pages g p).2 = fetched p ++ new
         ∧ length new ≤ length pages.
Proof.
  revert g p. induction pages as [|title rest IH]; intros g p.
  - exists []. simpl. rewrite app_nil_r. split; [done|lia].
  - destruct (get_outbound_links_queries c w (Positional title) p)
      as (new1 & Hf1 & Hl1).
    simpl. unfold mbind, run_bind.
    destruct (get_outbound_links c w (Positional title) p) as [[links|e] p1];
      simpl in *.
    + destruct (IH (add_links title links g) p1) as (new2 & Hf2 & Hl2).
      exists (new1 ++ new2). rewrite Hf2, Hf1, app_assoc, length_app.
      split; [done|lia].
    + exists new1. split; [done|lia].
Qed.

Lemma link_graph_cached c w pages g p :
  (∀ t, t ∈ pages → is_Some (cache p !! Positional t)) →
  ∃ g', link_graph c w pages g p = (Return g', p).
Proof.
  revert g. induction pages as [|title rest IH]; intros g Hc; [by eexists|].
  destruct (Hc title) as [links Hl]; [by left|].
  simpl. unfold mbind, run_bind. rewrite (get_outbound_links_hit c w _ _ _ Hl).
  apply IH. intros t Ht. apply Hc. by right.
Qed.

Lemma link_graph_app c w pages1 pages2 g p :
  link_graph c w (pages1 ++ pages2) g p =
  match link_graph c w pages1 g p with
  | (Return g', p') => link_graph c w pages2 g' p'
  | (Raise e, p') => (Raise e, p')
  end.
Proof.
  revert g p. induction pages1 as [|title rest IH]; intros g p; [done|].
  simpl. unfold mbind, run_bind.
  destruct (get_outbound_links c w (Positional title) p) as [[links|e] p1];
    [apply IH|done].
Qed.

Lemma link_graph_populates c w before rest g p :
  sound c w p →
  (∀ t, t ∈ before → answers c w t) →
  ∀ t links, t ∈ before → w t = Links links →
    cache (link_graph c w (before ++ rest) g p).2 !! Positional t = Some links.
Proof.
  intros Hp Hres t links Ht Hw.
  destruct (link_graph_sound c w (before ++ rest) g p Hp) as [_ Hsound].
  assert (is_Some (cache (link_graph c w (before ++ rest) g p).2 !! Positional t))
    as [l Hl].
  { clear Hw Hsound. revert g p Hp.
    induction before as [|a before IH]; intros g p Hp; [by apply elem_of_nil in Ht|].
    destruct (get_outbound_links_sound c w (Positional a) p Hp) as [Hr Hp1].
    destruct (proj1 (lookup_of_answers c w a)) as [la Hla]; [apply Hres; by left|].
    simpl in Hr. rewrite Hla in Hr.
    pose proof (get_outbound_links_Return_cached c w (Positional a) p la Hr) as Hca.
    simpl. unfold mbind, run_bind.
    destruct (get_outbound_links c w (Positional a) p) as [[l1|e] p1];
      simpl in *; [|done].
    apply elem_of_cons in Ht as [->|Ht].
    - destruct (link_graph_grows c w (before ++ rest) (add_links a l1 g) p1)
        as [Hsub _].
      exists la. by eapply lookup_weaken.
    - apply IH; [|done..]. intros u Hu. apply Hres. by right. }
  rewrite Hl. apply Hsound in Hl as [_ Hl]. simpl in Hl. congruence.
Qed.

(** * The verdict of a validation *)

Lemma path_titles_are_nodes c w (P : list string) g :
  graph_of c w P empty_graph = Return g →
  (∀ i u v, P !! i = Some u → P !! S i = Some v → has_link w u v) →
  (∀ x, P = [x] → w x ≠ Links []) →
  ∀ n, n ∈ P → n ∈ _node g.
Proof.
  intros Hrun Hlinks Hone n Hn.
  destruct (graph_of_Return c w P _ g Hrun graph_ok_empty) as (Hok & Hres & _ & Hnode).
  apply Hok, Hnode. right.
  pose proof Hn as [i Hi]%list_elem_of_lookup.
  destruct (P !! S i) as [v|] eqn:Hv.
  - destruct (Hlinks i n v Hi Hv) as (l & Hl & Hvl).
    exists n, l. repeat split; [done..| |by left].
    intros ->. by apply elem_of_nil in Hvl.
  - destruct i as [|j].
    + destruct P as [|a [|b rest]]; simplify_eq/=.
      destruct (Hres n Hn) as [_ [l Hl]].
      exists n, l. repeat split; [done..| |by left].
      intros ->. by apply (Hone n).
    + destruct (lookup_lt_is_Some_2 P j) as [u Hu].
      { apply lookup_lt_Some in Hi. lia. }
      destruct (Hlinks j u n Hu Hi) as (l & Hl & Hnl).
      exists u, l. repeat split; [by eapply list_elem_of_lookup_2|done| |by right].
      intros ->. by apply elem_of_nil in Hnl.
Qed.

Lemma verdict_accepted_iff c w (P : list string) :
  verdict c w (PathFoundResult P) = Return (PathFoundResult P)
  ↔ simple_path_in c w P.
Proof.
  split.
  - unfold verdict. intros Hacc.
    destruct (graph_of c w P empty_graph) as [g|e] eqn:Hrun; [|done].
    destruct (graph_of_Return c w P _ g Hrun graph_ok_empty)
      as (Hok & Hres & Hedge & Hnode).
    destruct (is_simple_path g P) as [[|]|e] eqn:Hsimple; [|done..].
    destruct (is_simple_path_true_inv g P Hsimple) as (Hne & Hin & Hnd & Hadj).
    split; [done|]. split; [done|].
    split; [intros t Ht; by apply Hres|]. split; [intros t Ht; by apply Hres|].
    split.
    + intros i u v Hu Hv. pose proof (Hadj i u v Hu Hv) as He.
      apply Hedge in He as [He|[_ Hl]]; [by apply edge_empty in He|done].
    + intros x -> Hw.
      assert (x ∈ _node g) as Hx by (apply Hin; by left).
      apply Hok, Hnode in Hx as [[? Hx]|(a & l & Ha & Hl & Hne' & _)].
      * simpl in Hx. by rewrite lookup_empty in Hx.
      * apply list_elem_of_singleton in Ha as ->. congruence.
  - intros (Hne & Hnd & Hprint & Hres & Hlinks & Hone). unfold verdict.
    destruct (graph_of_resolved c w P empty_graph) as [g Hrun].
    { intros t Ht. split; [by apply Hprint|by apply Hres]. }
    rewrite Hrun.
    destruct (graph_of_Return c w P _ g Hrun graph_ok_empty) as (Hok & _ & Hedge & _).
    rewrite (is_simple_path_true g P); [done..| | |].
    + by apply (path_titles_are_nodes c w P g).
    + done.
    + intros i u v Hu Hv. apply Hedge. right. split; [|by apply (Hlinks i)].
      by eapply list_elem_of_lookup_2.
Qed.

(** When every lookup returns, the only rejection is the validator's. *)
Lemma verdict_resolved c w (P : list string) :
  (∀ t, t ∈ P → answers c w t) →
  verdict c w (PathFoundResult P) = Return (PathFoundResult P)
  ∨ verdict c w (PathFoundResult P) = Raise (ModelRetry "Path is not valid").
Proof.
  intros Hres. unfold verdict.
  destruct (graph_of_resolved c w P empty_graph Hres) as [g Hg]. rewrite Hg.
  destruct (graph_of_Return c w P _ g Hg graph_ok_empty) as (Hok & _).
  destruct (is_simple_path_total g P Hok) as [[|] ->]; [by left|by right].
Qed.

(** What a validation can complete with. *)
Lemma verdict_outcomes c w data :
  verdict c w data = Return data
  ∨ (∃ reason, verdict c w data = Raise (ModelRetry reason))
  ∨ (∃ title message, title ∈ titles data ∧ c title = Some message
                      ∧ verdict c w data = Raise (MarkupError message))
  ∨ (∃ title name, title ∈ titles data ∧ w title = OtherError name
                   ∧ verdict c w data = Raise (Escaped name)).
Proof.
  destruct data as [P|]; [|by left]. unfold verdict.
  destruct (graph_of c w P empty_graph) as [g|e] eqn:Hrun.
  - destruct (graph_of_Return c w P _ g Hrun graph_ok_empty) as (Hok & _).
    destruct (is_simple_path_total g P Hok) as [[|] ->]; [by left|right; left; by eexists].
  - apply graph_of_Raise in Hrun as (before & t & rest & -> & _ & Hl).
    assert (t ∈ titles (PathFoundResult (before ++ t :: rest))) as Hin
      by (simpl; set_solver).
    unfold lookup_of in Hl. destruct (c t) as [m|] eqn:Hc.
    + simplify_eq. right; right; left. by exists t, m.
    + destruct (w t) as [l|m|name] eqn:Hw; simplify_eq.
      * right; left. by eexists.
      * right; right; right. by exists t, name.
Qed.

(** * Where no lookup escapes *)

Lemma lookup_of_handled c w title e :
  c title = None → (∀ name, w title ≠ OtherError name) →
  lookup_of c w title = Raise e →
  ∃ message, w title = PageError message ∧ e = ModelRetry message.
Proof.
  intros Hprint Hno. unfold lookup_of. rewrite Hprint.
  destruct (w title) as [l|m|name] eqn:Hw; [done| |by destruct (Hno name)].
  intros [= <-]. by exists m.
Qed.

Lemma graph_of_handled c w (P : list string) g e :
  handled c w P → graph_of c w P g = Raise e →
  ∃ before failing rest reason,
    P = before ++ failing :: rest
    ∧ (∀ t, t ∈ before → resolves w t)
    ∧ w failing = PageError reason
    ∧ e = ModelRetry reason.
Proof.
  intros Hh Hrun.
  apply graph_of_Raise in Hrun as (before & t & rest & -> & Hres & Hl).
  destruct (Hh t) as [Hprint Hno]; [set_solver|].
  apply lookup_of_handled in Hl as (m & Hm & ->); [|done..].
  exists before, t, rest, m. split; [done|]. split; [|done].
  intros u Hu. by apply Hres.
Qed.

(** Where no lookup escapes, a path with a repeated title is rejected. *)
Lemma repeated_title_rejected c w (P : list string) :
  handled c w P → ¬ NoDup P →
  ∃ reason, verdict c w (PathFoundResult P) = Raise (ModelRetry reason).
Proof.
  intros Hh Hnd. unfold verdict.
  destruct (graph_of c w P empty_graph) as [g|e] eqn:Hrun.
  - rewrite (is_simple_path_repeated g P Hnd). by eexists.
  - apply (graph_of_handled c w P _ e Hh) in Hrun as (? & ? & ? & m & _ & _ & _ & ->).
    by eexists.
Qed.

(** Where no lookup escapes, a path with a missing link is rejected. *)
Lemma missing_link_rejected c w (P : list string) i u v :
  handled c w P →
  P !! i = Some u → P !! S i = Some v → ¬ has_link w u v →
  ∃ reason, verdict c w (PathFoundResult P) = Raise (ModelRetry reason).
Proof.
  intros Hh Hu Hv Hno. unfold verdict.
  destruct (graph_of c w P empty_graph) as [g|e] eqn:Hrun.
  - destruct (graph_of_Return c w P _ g Hrun graph_ok_empty) as (Hok & _ & Hedge & _).
    rewrite (is_simple_path_gap g P i u v Hok Hu Hv); [by eexists|].
    rewrite Hedge. intros [He|[_ Hl]]; [by apply edge_empty in He|done].
  - apply (graph_of_handled c w P _ e Hh) in Hrun as (? & ? & ? & m & _ & _ & _ & ->).
    by eexists.
Qed.

(** Where no lookup escapes, a path with a title that is not found is
    rejected with the message of the first such title. *)
Lemma unresolved_title_rejected c w (P : list string) title message :
  handled c w P →
  title ∈ P → w title = PageError message →
  ∃ before failing rest reason,
    P = before ++ failing :: rest
    ∧ (∀ t, t ∈ before → resolves w t)
    ∧ w failing = PageError reason
    ∧ (failing = title ∨ title ∈ rest)
    ∧ verdict c w (PathFoundResult P) = Raise (ModelRetry reason).
Proof.
  intros Hh Hin Hfail. unfold verdict.
  destruct (graph_of c w P empty_graph) as [g|e] eqn:Hrun.
  - destruct (graph_of_Return c w P _ g Hrun graph_ok_empty) as (_ & Hres & _).
    destruct (Hres title Hin) as [_ [l Hl]]. congruence.
  - apply (graph_of_handled c w P _ e Hh) in Hrun
      as (before & t & rest & m & -> & Hres & Hm & ->).
    exists before, t, rest, m.
    split; [done|]. split; [done|]. split; [done|]. split; [|done].
    apply elem_of_app in Hin as [Hin|[->|Hin]%elem_of_cons]; [|by left|by right].
    destruct (Hres title Hin) as [l Hl]. congruence.
Qed.
(** * The claims of the specification *)


(** C1, as amended.  A non-empty path of pairwise distinct titles that all
    resolve and whose lines are printed, in which every title is followed
    by one of its links, is accepted; a path of a single title needs that
    title to have at least one link. *)
Theorem C1_valid_path_accepted c w history (P : list string) :
  P ≠ [] → NoDup P →
  (∀ t, t ∈ P → c t = None) →
  (∀ t, t ∈ P → resolves w t) →
  (∀ i u v, P !! i = Some u → P !! S i = Some v → has_link w u v) →
  (∀ x, P = [x] → w x ≠ Links []) →
  (validate_path c w (PathFoundResult P) (after c w history)).1
  = Return (PathFoundResult P).
Proof.
  intros. rewrite validate_path_after. by apply verdict_accepted_iff.
Qed.

Lemma C1_valid_path_accepted_witness :
  (validate_path scenario_console scenario
     (PathFoundResult ["Lindsay Lohan"; "Donald Trump"; "Barack Obama"])
     (after scenario_console scenario
        [Lookup "Lindsay Lohan"; Validate (PathFoundResult ["A"; "B"])])).1
  = Return (PathFoundResult ["Lindsay Lohan"; "Donald Trump"; "Barack Obama"]).
Proof.
  apply (C1_valid_path_accepted scenario_console scenario
           [Lookup "Lindsay Lohan"; Validate (PathFoundResult ["A"; "B"])]
           ["Lindsay Lohan"; "Donald Trump"; "Barack Obama"]).
  - done.
  - by_evaluation.
  - intros t Ht. apply list_elem_of_In in Ht.
    destruct Ht as [<-|[<-|[<-|[]]]]; reflexivity.
  - intros t Ht. apply list_elem_of_In in Ht.
    destruct Ht as [<-|[<-|[<-|[]]]]; eexists; reflexivity.
  - intros [|[|[|i]]] u v Hu Hv; simplify_eq/=;
      (eexists; split; [reflexivity|set_solver]).
  - intros x Hx. discriminate Hx.
Defined.

(** C1, as the specification states it, fails: the last title of the path
    is looked up as well, and a link may point to a page that does not
    exist. *)
Lemma C1_counterexample :
  ["Wanted"; "Nonexistent Page"] ≠ []
  ∧ NoDup ["Wanted"; "Nonexistent Page"]
  ∧ (∀ i u v, ["Wanted"; "Nonexistent Page"] !! i = Some u →
              ["Wanted"; "Nonexistent Page"] !! S i = Some v →
              has_link scenario u v)
  ∧ (validate_path scenario_console scenario
       (PathFoundResult ["Wanted"; "Nonexistent Page"]) fresh).1
    = Raise (ModelRetry "no page matches Nonexistent Page")
  ∧ (validate_path scenario_console scenario
       (PathFoundResult ["Wanted"; "Nonexistent Page"]) fresh).1
    ≠ Return (PathFoundResult ["Wanted"; "Nonexistent Page"]).
Proof.
  split; [done|]. split; [by_evaluation|].
  split; [|split; [reflexivity|discriminate]].
  intros [|[|i]] u v Hu Hv; simplify_eq/=.
  eexists; split; [reflexivity|set_solver].
Qed.

(** C2 fails on the code.  The title "Mercury" occurs twice in the path, and
    the validation is not rejected: the [DisambiguationError] of the client
    leaves [validate_path], because the handler of [get_outbound_links]
    names [PageError] only. *)
Theorem C2_repeated_title_escapes :
  ¬ NoDup ["Mercury"; "A"; "Mercury"]
  ∧ (validate_path scenario_console scenario
       (PathFoundResult ["Mercury"; "A"; "Mercury"]) fresh).1
    = Raise (Escaped "DisambiguationError").
Proof.
  split; [|reflexivity]. intros Hnd. apply NoDup_cons in Hnd as [Hout _].
  apply Hout. set_solver.
Qed.

(** C3 fails on the code.  "Barack Obama" is not a link of "Lindsay Lohan",
    and the validation is not rejected: the [DisambiguationError] raised
    for "Mercury" leaves [validate_path]. *)
Theorem C3_missing_link_escapes :
  ¬ has_link scenario "Lindsay Lohan" "Barack Obama"
  ∧ (validate_path scenario_console scenario
       (PathFoundResult ["Lindsay Lohan"; "Barack Obama"; "Mercury"]) fresh).1
    = Raise (Escaped "DisambiguationError").
Proof.
  split; [|reflexivity]. intros (l & Hl & Hin). vm_compute in Hl.
  injection Hl as <-. set_solver.
Qed.

(** C4, as amended.  For a path of a single title [X] whose line is printed
    the validator looks [X] up (one query when the positional call has no
    cache entry, none and no change at all when it has one); it accepts
    when [X] resolves to at least one link, with no edge to check, and
    rejects with the resolver's message when [X] is not found. *)
Theorem C4_single_title c w history X :
  let p := after c w history in
  let r := validate_path c w (PathFoundResult [X]) p in
  (∀ links, c X = None → w X = Links links → links ≠ [] →
     r.1 = Return (PathFoundResult [X]))
  ∧ (∀ message, c X = None → w X = PageError message →
       r.1 = Raise (ModelRetry message))
  ∧ (c X = None → cache p !! Positional X = None →
       fetched r.2 = fetched p ++ [Positional X])
  ∧ (is_Some (cache p !! Positional X) → r.2 = p).
Proof.
  intros p r. subst r p. rewrite validate_path_after, validate_path_state.
  split; [|split; [|split]].
  - intros links Hprint Hw Hne. apply verdict_accepted_iff.
    split; [done|]. split; [apply NoDup_singleton|].
    split; [by intros t ->%list_elem_of_singleton|].
    split; [intros t ->%list_elem_of_singleton; by exists links|].
    split; [intros [|i] u v Hu Hv; simplify_eq/=|].
    intros x [= <-]. congruence.
  - intros message Hprint Hw. unfold verdict. simpl. unfold lookup_of.
    by rewrite Hprint, Hw.
  - intros Hprint Hc. simpl. unfold mbind, run_bind, get_outbound_links.
    simpl. rewrite Hc, Hprint. by destruct (w X).
  - intros Hc. destruct (link_graph_cached c w [X] empty_graph (after c w history))
      as [g' ->]; [|done].
    by intros t ->%list_elem_of_singleton.
Qed.

Lemma C4_single_title_witness :
  (validate_path scenario_console scenario (PathFoundResult ["Barack Obama"])
     (after scenario_console scenario [Lookup "Barack Obama"])).1
  = Return (PathFoundResult ["Barack Obama"])
  ∧ fetched (validate_path scenario_console scenario
               (PathFoundResult ["Barack Obama"])
               (after scenario_console scenario [Lookup "Barack Obama"])).2
    = fetched (after scenario_console scenario [Lookup "Barack Obama"])
      ++ [Positional "Barack Obama"].
Proof.
  pose proof (C4_single_title scenario_console scenario
                [Lookup "Barack Obama"] "Barack Obama") as (Hacc & _ & Hmiss & _).
  split.
  - apply (Hacc ["Donald Trump"; "Joe Biden"]); [reflexivity..|discriminate].
  - apply Hmiss; reflexivity.
Defined.

(** C4, as the specification states it, fails: the single title is looked
    up, and when it is not found the path is rejected. *)
Lemma C4_counterexample :
  validate_path scenario_console scenario
    (PathFoundResult ["Nonexistent Page"]) fresh
  = (Raise (ModelRetry "no page matches Nonexistent Page"),
     {| cache := ∅; fetched := [Positional "Nonexistent Page"] |})
  ∧ (validate_path scenario_console scenario
       (PathFoundResult ["Nonexistent Page"]) fresh).1
    ≠ Return (PathFoundResult ["Nonexistent Page"])
  ∧ fetched (validate_path scenario_console scenario
               (PathFoundResult ["Nonexistent Page"]) fresh).2
    ≠ fetched fresh.
Proof. split; [reflexivity|]. split; discriminate. Qed.

(** The single title is also rejected when it resolves to no link at all:
    [is_simple_path] asks for it to be a node, and only [add_edge] makes
    nodes. *)
Example single_title_without_links :
  (validate_path scenario_console scenario (PathFoundResult ["Stub"]) fresh).1
  = Raise (ModelRetry "Path is not valid").
Proof. reflexivity. Qed.

(** C5 fails on the code.  "Nonexistent Page" is not found, and the
    validation is not rejected with the resolver's message: the
    [DisambiguationError] raised for "Mercury" leaves [validate_path]
    first. *)
Theorem C5_unresolved_title_escapes :
  scenario "Nonexistent Page" = PageError "no page matches Nonexistent Page"
  ∧ (validate_path scenario_console scenario
       (PathFoundResult ["Mercury"; "Nonexistent Page"]) fresh).1
    = Raise (Escaped "DisambiguationError").
Proof. split; reflexivity. Qed.

(** C6.  The loop of a validation queries only titles of the candidate
    path, and when it completes, the graph has the edge [(A, B)] exactly
    when [A] is on the path and [B] is one of the links of [A]; the end of
    every edge is a node of the graph. *)
Theorem C6_graph_of_the_path c w history (P : list string) :
  let p := after c w history in
  let r := link_graph c w P empty_graph p in
  (∃ new, fetched r.2 = fetched p ++ new
          ∧ ∀ args, args ∈ new → ∃ t, args = Positional t ∧ t ∈ P)
  ∧ (∀ g, r.1 = Return g →
       (∀ A B, edge g A B ↔ A ∈ P ∧ has_link w A B)
       ∧ (∀ A B, edge g A B → B ∈ _node g)).
Proof.
  intros p r. subst r p. split.
  - destruct (link_graph_grows c w P empty_graph (after c w history))
      as (_ & new & Hf & Hnew).
    exists new. split; [done|]. intros args Ha.
    destruct (Hnew args Ha) as [Hin _].
    apply list_elem_of_fmap in Hin as (t & -> & Ht). by exists t.
  - intros g Hg.
    destruct (link_graph_sound c w P empty_graph _ (after_sound c w history))
      as [Hr _].
    rewrite Hg in Hr. symmetry in Hr.
    destruct (graph_of_Return c w P _ g Hr graph_ok_empty)
      as (Hok & _ & Hedge & Hnode).
    assert (∀ A B, edge g A B ↔ A ∈ P ∧ has_link w A B) as Hiff.
    { intros A B. rewrite Hedge. split; [|by right].
      intros [He|H]; [by apply edge_empty in He|done]. }
    split; [done|]. intros A B [HA (l & Hl & HB)]%Hiff.
    apply Hok, Hnode. right. exists A, l. repeat split; [done..| |by right].
    intros ->. by apply elem_of_nil in HB.
Qed.

Lemma C6_graph_of_the_path_witness :
  ∃ g, (link_graph scenario_console scenario ["Lindsay Lohan"; "Donald Trump"]
          empty_graph (after scenario_console scenario [])).1 = Return g
       ∧ (∀ A B, edge g A B ↔
                 A ∈ ["Lindsay Lohan"; "Donald Trump"] ∧ has_link scenario A B)
       ∧ (∀ A B, edge g A B → B ∈ _node g).
Proof.
  pose proof (C6_graph_of_the_path scenario_console scenario []
                ["Lindsay Lohan"; "Donald Trump"]) as [_ Hgraph].
  eexists. split; [reflexivity|]. apply Hgraph. reflexivity.
Defined.




(** C8.  The empty path is rejected, and nothing is looked up. *)
Theorem C8_empty_path_rejected c w p :
  validate_path c w (PathFoundResult []) p
  = (Raise (ModelRetry "Path is not valid"), p).
Proof. reflexivity. Qed.

(** C9 fails on the code.  The client raises a [DisambiguationError] for
    "Mercury", and the validation neither returns nor raises [ModelRetry]:
    the exception leaves [validate_path], because the handler of
    [get_outbound_links] names [PageError] only. *)
Theorem C9_exception_escapes :
  (validate_path scenario_console scenario (PathFoundResult ["Mercury"]) fresh).1
  = Raise (Escaped "DisambiguationError")
  ∧ ¬ ((validate_path scenario_console scenario
          (PathFoundResult ["Mercury"]) fresh).1
       = Return (PathFoundResult ["Mercury"])
       ∨ ∃ reason, (validate_path scenario_console scenario
                      (PathFoundResult ["Mercury"]) fresh).1
                   = Raise (ModelRetry reason)).
Proof.
  split; [reflexivity|]. intros [H|[reason H]]; vm_compute in H; discriminate H.
Qed.

(** The line of a title is printed before the [try]: a title that [rich]
    cannot print makes [validate_path] raise [MarkupError], with no query
    and no cache entry. *)
Example unprinted_title_escapes :
  validate_path scenario_console scenario (PathFoundResult ["[/b]"]) fresh
  = (Raise (MarkupError
              "closing tag '[/b]' at position 29 doesn't match any open tag"),
     fresh).
Proof. reflexivity. Qed.

(** C10.  A [NoPathFoundResult] is returned as it is: no lookup, no graph,
    no check. *)
Theorem C10_no_path_found_returned c w p :
  validate_path c w NoPathFoundResult p = (Return NoPathFoundResult, p).
Proof. reflexivity. Qed.

(** * Further properties of the two functions *)

Lemma link_graph_answers c w (before : list string) g p :
  sound c w p →
  (∀ t, t ∈ before → answers c w t) →
  ∃ g1, (link_graph c w before g p).1 = Return g1
        ∧ sound c w (link_graph c w before g p).2
        ∧ ∀ t, t ∈ before →
            is_Some (cache (link_graph c w before g p).2 !! Positional t).
Proof.
  intros Hp Hres.
  destruct (link_graph_sound c w before g p Hp) as [Hr Hs].
  destruct (graph_of_resolved c w before g Hres) as [g1 Hg1].
  exists g1. split; [congruence|]. split; [done|].
  intros t Ht. destruct (Hres t Ht) as [_ [l Hl]]. exists l.
  rewrite <- (app_nil_r before) at 1. by apply link_graph_populates.
Qed.

(** Looping over the same path again, right away, changes nothing when
    every title resolves. *)
Lemma link_graph_again c w (P : list string) g g' p :
  sound c w p →
  (∀ t, t ∈ P → resolves w t) →
  (link_graph c w P g' (link_graph c w P g p).2).2 = (link_graph c w P g p).2.
Proof.
  intros Hp Hres.
  destruct (first_failure c w P) as [Hall|(before & t & rest & e & -> & Hb & Hl)].
  - destruct (link_graph_answers c w P g p Hp Hall) as (_ & _ & _ & Hc).
    by destruct (link_graph_cached c w P g' _ Hc) as [g2 ->].
  - assert (∃ m, c t = Some m) as [m Hm].
    { unfold lookup_of in Hl. destruct (c t) as [m|]; [by exists m|].
      destruct (Hres t) as [l Hw]; [set_solver|]. by rewrite Hw in Hl. }
    destruct (link_graph_answers c w before g p Hp Hb) as (g1 & Hr1 & Hs1 & Hc1).
    assert ((link_graph c w (before ++ t :: rest) g p).2
            = (link_graph c w before g p).2) as Hstate.
    { rewrite link_graph_app.
      destruct (link_graph c w before g p) as [r1 p1]. simpl in *. subst r1.
      unfold mbind, run_bind.
      rewrite (get_outbound_links_unprinted c w (Positional t) p1 m); [done| |done].
      destruct (cache p1 !! Positional t) as [l|] eqn:Hl1; [|done].
      apply Hs1 in Hl1 as [Hl1 _]. simpl in Hl1. congruence. }
    rewrite Hstate.
    destruct (link_graph c w before g p) as [r1 p1]. simpl in *.
    rewrite link_graph_app.
    destruct (link_graph_cached c w before g' p1 Hc1) as [g2 ->].
    simpl. unfold mbind, run_bind.
    rewrite (get_outbound_links_unprinted c w (Positional t) p1 m); [done| |done].
    destruct (cache p1 !! Positional t) as [l|] eqn:Hl1; [|done].
    apply Hs1 in Hl1 as [Hl1 _]. simpl in Hl1. congruence.
Qed.

Lemma simple_path_in_prefix c w (P Q : list string) :
  simple_path_in c w (P ++ Q) → P ≠ [] → simple_path_in c w P.
Proof.
  intros (_ & Hnd & Hprint & Hres & Hlinks & Hone) Hne.
  split; [done|]. split; [by apply NoDup_app in Hnd as [? _]|].
  split; [|split; [|split]].
  - intros t Ht. apply Hprint, elem_of_app. by left.
  - intros t Ht. apply Hres, elem_of_app. by left.
  - intros i u v Hu Hv. apply (Hlinks i); by apply lookup_app_l_Some.
  - intros x ->. destruct Q as [|q Q]; [by apply Hone|].
    destruct (Hlinks 0 x q) as (l & Hl & Hq); [done..|].
    rewrite Hl. intros [= ->]. by apply elem_of_nil in Hq.
Qed.

Lemma simple_path_in_join c w (P Q : list string) a :
  simple_path_in c w (P ++ [a]) → simple_path_in c w (a :: Q) →
  NoDup (P ++ a :: Q) →
  simple_path_in c w (P ++ a :: Q).
Proof.
  intros (_ & _ & Hprint1 & Hres1 & Hlinks1 & _)
         (_ & _ & Hprint2 & Hres2 & Hlinks2 & Hone2) Hnd.
  split; [by destruct P|]. split; [done|]. split; [|split; [|split]].
  - intros t [Ht|Ht]%elem_of_app; [|by apply Hprint2].
    apply Hprint1, elem_of_app. by left.
  - intros t [Ht|Ht]%elem_of_app; [|by apply Hres2].
    apply Hres1, elem_of_app. by left.
  - intros i u v Hu Hv. destruct (decide (i < length P)) as [Hlt|Hge].
    + apply (Hlinks1 i).
      * rewrite lookup_app_l in Hu by done. by apply lookup_app_l_Some.
      * rewrite cons_middle, app_assoc in Hv.
        rewrite lookup_app_l in Hv by (rewrite length_app; simpl; lia). done.
    + rewrite lookup_app_r in Hu by lia. rewrite lookup_app_r in Hv by lia.
      apply (Hlinks2 (i - length P)); [done|].
      by replace (S (i - length P)) with (S i - length P) by lia.
  - intros x Hx. destruct P as [|b P].
    + simpl in Hx. by apply Hone2.
    + simpl in Hx. injection Hx as _ Hx. by destruct P.
Qed.

Lemma same_links_sym w w' : same_links w w' → same_links w' w.
Proof.
  intros H t. specialize (H t). destruct (w t), (w' t); done.
Qed.

Lemma same_links_resolves w w' title :
  same_links w w' → resolves w title → resolves w' title.
Proof.
  intros Hsame [l Hl]. specialize (Hsame title). rewrite Hl in Hsame.
  unfold resolves. destruct (w' title) as [l'| |]; [by exists l'|done..].
Qed.

Lemma same_links_simple_path_in c w w' (P : list string) :
  same_links w w' → simple_path_in c w P → simple_path_in c w' P.
Proof.
  intros Hsame (Hne & Hnd & Hprint & Hres & Hlinks & Hone).
  split; [done|]. split; [done|]. split; [done|]. split; [|split].
  - intros t Ht. by apply (same_links_resolves w w'), Hres.
  - intros i u v Hu Hv. destruct (Hlinks i u v Hu Hv) as (l & Hl & Hvl).
    specialize (Hsame u). rewrite Hl in Hsame. unfold has_link.
    destruct (w' u) as [l'| |]; [|done..]. exists l'. split; [done|]. by apply Hsame.
  - intros x -> Hw'. specialize (Hsame x). rewrite Hw' in Hsame.
    destruct (w x) as [l| |] eqn:Hw; [|done..].
    destruct l as [|t l]; [by apply (Hone x)|].
    destruct (Hsame t) as [Hin _]. by apply elem_of_nil in Hin; [|left].
Qed.

Lemma same_links_graph_of_Raise c w w' (pages : list string) g g' e :
  same_links w w' →
  graph_of c w pages g = Raise e → graph_of c w' pages g' = Raise e.
Proof.
  intros Hsame. revert g g'.
  induction pages as [|title rest IH]; intros g g' Hrun; [done|].
  simpl in *. unfold lookup_of in *. specialize (Hsame title).
  destruct (c title); [done|].
  destruct (w title), (w' title); try done; [by eapply IH|congruence..].
Qed.

Lemma same_links_verdict c w w' data :
  same_links w w' → verdict c w data = verdict c w' data.
Proof.
  intros Hsame. destruct data as [P|]; [|done].
  destruct (graph_of c w P empty_graph) as [g|e] eqn:Hrun.
  - destruct (graph_of_Return c w P _ g Hrun graph_ok_empty) as (_ & Hres & _).
    assert (∀ t, t ∈ P → answers c w' t) as Hres'.
    { intros t Ht. destruct (Hres t Ht) as [Hp Hr]. split; [done|].
      by apply (same_links_resolves w w'). }
    pose proof (verdict_accepted_iff c w P) as Hiff.
    pose proof (verdict_accepted_iff c w' P) as Hiff'.
    destruct (verdict_resolved c w P Hres) as [Hv|Hv],
             (verdict_resolved c w' P Hres') as [Hv'|Hv']; rewrite Hv, Hv'; [done| | |done].
    + apply Hiff, (same_links_simple_path_in c w w' P Hsame), Hiff' in Hv. congruence.
    + apply Hiff', (same_links_simple_path_in c w' w P (same_links_sym _ _ Hsame)), Hiff
        in Hv'. congruence.
  - unfold verdict.
    by rewrite Hrun,
      (same_links_graph_of_Raise c w w' P empty_graph empty_graph e Hsame Hrun).
Qed.

Lemma graph_of_agree c w w' (pages : list string) g :
  (∀ t, t ∈ pages → w t = w' t) → graph_of c w pages g = graph_of c w' pages g.
Proof.
  revert g. induction pages as [|title rest IH]; intros g Hagree; [done|].
  simpl. unfold lookup_of. rewrite <- (Hagree title) by (by left).
  destruct (c title); [done|].
  destruct (w title); [|done..]. apply IH. intros t Ht. apply Hagree. by right.
Qed.

(** X1.  A validation returns the path exactly when the path is not empty,
    has no title twice, the line of every title is printed, every title
    resolves, every title is followed by one of its links, and a path of
    one title has a title with at least one link. *)
Theorem X1_accepted_iff_simple_path c w history (P : list string) :
  (validate_path c w (PathFoundResult P) (after c w history)).1
  = Return (PathFoundResult P)
  ↔ P ≠ []
    ∧ NoDup P
    ∧ (∀ t, t ∈ P → c t = None)
    ∧ (∀ t, t ∈ P → resolves w t)
    ∧ (∀ i u v, P !! i = Some u → P !! S i = Some v → has_link w u v)
    ∧ (∀ x, P = [x] → w x ≠ Links []).
Proof. rewrite validate_path_after. apply verdict_accepted_iff. Qed.

Lemma X1_accepted_iff_simple_path_witness :
  NoDup ["Lindsay Lohan"; "Donald Trump"; "Barack Obama"]
  ∧ has_link scenario "Lindsay Lohan" "Donald Trump"
  ∧ has_link scenario "Donald Trump" "Barack Obama".
Proof.
  assert ((validate_path scenario_console scenario
             (PathFoundResult ["Lindsay Lohan"; "Donald Trump"; "Barack Obama"])
             (after scenario_console scenario [])).1
          = Return (PathFoundResult ["Lindsay Lohan"; "Donald Trump"; "Barack Obama"]))
    as Hacc by reflexivity.
  apply (X1_accepted_iff_simple_path scenario_console scenario []) in Hacc
    as (_ & Hnd & _ & _ & Hlinks & _).
  split; [exact Hnd|].
  split; [apply (Hlinks 0)|apply (Hlinks 1)]; reflexivity.
Defined.

(** X2.  What a validation completes with does not depend on what the cache
    holds: it is the same after any two histories of the process. *)
Theorem X2_validation_independent_of_cache c w history history' data :
  (validate_path c w data (after c w history)).1
  = (validate_path c w data (after c w history')).1.
Proof. by rewrite !validate_path_after. Qed.

(** X3.  In every state the process can reach, a lookup completes with
    [MarkupError] when the line of the title cannot be printed, and
    otherwise with what Wikipedia gives for the title: its links,
    [ModelRetry] with the message of the [PageError], or the other
    exception. *)
Theorem X3_lookup_agrees_with_wikipedia c w history args :
  (get_outbound_links c w args (after c w history)).1
  = match c (page_name_of args) with
    | Some message => Raise (MarkupError message)
    | None =>
        match w (page_name_of args) with
        | Links links => Return links
        | PageError message => Raise (ModelRetry message)
        | OtherError name => Raise (Escaped name)
        end
    end.
Proof. apply get_outbound_links_sound, after_sound. Qed.

(** X4.  In any state, a lookup that returned is repeated for free: the
    second call returns the same list and leaves the process as it is. *)
Theorem X4_lookup_again c w args p links :
  (get_outbound_links c w args p).1 = Return links →
  get_outbound_links c w args (get_outbound_links c w args p).2
  = (Return links, (get_outbound_links c w args p).2).
Proof. intros Hr. by apply get_outbound_links_hit, get_outbound_links_Return_cached. Qed.

Lemma X4_lookup_again_witness :
  get_outbound_links scenario_console scenario (Positional "A")
    (get_outbound_links scenario_console scenario (Positional "A") fresh).2
  = (Return ["B"],
     (get_outbound_links scenario_console scenario (Positional "A") fresh).2).
Proof.
  apply (X4_lookup_again scenario_console scenario (Positional "A") fresh ["B"]).
  reflexivity.
Defined.

(** X5.  Every cache entry the process ever holds is the link list of
    Wikipedia for the title of its key, and the call with the arguments of
    its key queried Wikipedia exactly once. *)
Theorem X5_cache_entries c w history args links :
  cache (after c w history) !! args = Some links →
  w (page_name_of args) = Links links
  ∧ times args (fetched (after c w history)) = 1.
Proof.
  intros Hc. destruct (after_sound c w history args links Hc) as [_ Hw].
  split; [done|]. rewrite (after_tally c w history args); [by rewrite Hc|].
  by exists links.
Qed.

Lemma X5_cache_entries_witness :
  scenario "A" = Links ["B"]
  ∧ times (Positional "A")
      (fetched (after scenario_console scenario
                  [Validate (PathFoundResult ["A"; "B"; "A"]); Lookup "A"])) = 1.
Proof.
  apply (X5_cache_entries scenario_console scenario
           [Validate (PathFoundResult ["A"; "B"; "A"]); Lookup "A"]
           (Positional "A") ["B"]).
  reflexivity.
Defined.

(** X6.  When every title of a result resolves, validating the same result
    again right away completes in the same way and changes nothing: no
    query, no new cache entry. *)
Theorem X6_validating_again_is_free c w history data :
  (∀ t, t ∈ titles data → resolves w t) →
  validate_path c w data (validate_path c w data (after c w history)).2
  = ((validate_path c w data (after c w history)).1,
     (validate_path c w data (after c w history)).2).
Proof.
  intros Hres. destruct data as [P|]; [|done].
  pose proof (after_sound c w history) as Hp.
  destruct (validate_path_sound c w (PathFoundResult P) _ Hp) as [Hr1 Hp1].
  destruct (validate_path_sound c w (PathFoundResult P) _ Hp1) as [Hr2 _].
  rewrite (surjective_pairing
             (validate_path c w (PathFoundResult P)
                (validate_path c w (PathFoundResult P) (after c w history)).2)).
  f_equal; [congruence|].
  rewrite !validate_path_state. by apply link_graph_again.
Qed.

Lemma X6_validating_again_is_free_witness :
  validate_path scenario_console scenario (PathFoundResult ["A"; "B"; "A"])
    (validate_path scenario_console scenario (PathFoundResult ["A"; "B"; "A"])
       (after scenario_console scenario [])).2
  = (Raise (ModelRetry "Path is not valid"),
     (validate_path scenario_console scenario (PathFoundResult ["A"; "B"; "A"])
        (after scenario_console scenario [])).2).
Proof.
  apply (X6_validating_again_is_free scenario_console scenario []
           (PathFoundResult ["A"; "B"; "A"])).
  intros t Ht. apply list_elem_of_In in Ht.
  destruct Ht as [<-|[<-|[<-|[]]]]; eexists; reflexivity.
Defined.

(** X7.  When every title of the path resolves and its line is printed, a
    validation queries exactly the titles of the path whose positional call
    has no cache entry, each of them once, however often a title occurs in
    the path. *)
Theorem X7_queries_of_a_validation c w history (P : list string) :
  (∀ t, t ∈ P → c t = None ∧ resolves w t) →
  ∃ new,
    fetched (validate_path c w (PathFoundResult P) (after c w history)).2
    = fetched (after c w history) ++ new
    ∧ NoDup new
    ∧ ∀ args, args ∈ new ↔
              ∃ t, args = Positional t ∧ t ∈ P
                   ∧ cache (after c w history) !! Positional t = None.
Proof.
  intros Hres.
  destruct (validate_path_grows c w (PathFoundResult P) (after c w history))
    as (_ & new & Hf & Hnew).
  pose proof (after_tally c w (history ++ [Validate (PathFoundResult P)])) as Ht'.
  rewrite after_Validate in Ht'.
  pose proof (after_tally c w history) as Ht0.
  assert (∀ args, args ∈ new →
            ∃ t, args = Positional t ∧ t ∈ P
                 ∧ cache (after c w history) !! Positional t = None) as Hnew'.
  { intros args Ha. destruct (Hnew args Ha) as [Hin Hnone].
    apply list_elem_of_fmap in Hin as (t & -> & Ht). by exists t. }
  exists new. split; [done|]. split.
  - apply NoDup_times. intros args.
    destruct (decide (args ∈ new)) as [Hin|Hout]; [|rewrite times_absent; [lia|done]].
    destruct (Hnew' args Hin) as (t & -> & HP & _).
    specialize (Ht' (Positional t) (proj2 (Hres t HP))).
    rewrite Hf, times_app in Ht'. destruct (cache _ !! Positional t); lia.
  - intros args. split; [apply Hnew'|]. intros (t & -> & HP & Hnone).
    destruct (Hres t HP) as [Hprint [l Hl]].
    specialize (Ht' (Positional t) (proj2 (Hres t HP))).
    specialize (Ht0 (Positional t) (proj2 (Hres t HP))).
    rewrite Hnone in Ht0. rewrite Hf, times_app, Ht0 in Ht'.
    rewrite validate_path_state in Ht'. rewrite <- (app_nil_r P) in Ht' at 1.
    rewrite (link_graph_populates c w P [] _ _ (after_sound c w history)
               Hres t l HP Hl) in Ht'.
    destruct (decide (Positional t ∈ new)) as [Hin|Hout]; [done|].
    rewrite (times_absent _ new Hout) in Ht'. lia.
Qed.

Lemma X7_queries_of_a_validation_witness :
  ∃ new,
    fetched (validate_path scenario_console scenario
               (PathFoundResult ["A"; "B"; "A"])
               (after scenario_console scenario [Lookup "B"])).2
    = fetched (after scenario_console scenario [Lookup "B"]) ++ new
    ∧ NoDup new
    ∧ ∀ args, args ∈ new ↔
              ∃ t, args = Positional t ∧ t ∈ ["A"; "B"; "A"]
                   ∧ cache (after scenario_console scenario [Lookup "B"])
                       !! Positional t = None.
Proof.
  apply (X7_queries_of_a_validation scenario_console scenario [Lookup "B"]
           ["A"; "B"; "A"]).
  intros t Ht. apply list_elem_of_In in Ht.
  destruct Ht as [<-|[<-|[<-|[]]]]; (split; [reflexivity|eexists; reflexivity]).
Defined.

(** The validation of the witness of X7 queries "B" again, after the tool
    did: the two calls have different cache keys. *)
Example tool_and_validation_query_twice :
  fetched (validate_path scenario_console scenario
             (PathFoundResult ["A"; "B"; "A"])
             (after scenario_console scenario [Lookup "B"])).2
  = [Keyword "B"; Positional "A"; Positional "B"].
Proof. reflexivity. Qed.

(** X8.  A validation stops looking up at the first title of the path
    whose lookup does not return (its line is not printed, or it does not
    resolve): the queries it makes are for titles before that one, followed
    by one query for that title when its line was printed; no title after
    it is looked up. *)
Theorem X8_no_lookup_after_the_first_failure c w history
    (before : list string) failing (rest : list string) :
  (∀ t, t ∈ before → c t = None ∧ resolves w t) →
  ¬ (c failing = None ∧ resolves w failing) →
  ∃ new,
    fetched (validate_path c w (PathFoundResult (before ++ failing :: rest))
               (after c w history)).2
    = fetched (after c w history) ++ new
      ++ match c failing with None => [Positional failing] | Some _ => [] end
    ∧ ∀ args, args ∈ new → ∃ t, args = Positional t ∧ t ∈ before.
Proof.
  intros Hres Hfail. rewrite validate_path_state, link_graph_app.
  destruct (link_graph_answers c w before empty_graph _
              (after_sound c w history) Hres) as (g1 & Hr & Hp1 & _).
  destruct (link_graph_grows c w before empty_graph (after c w history))
    as (_ & new & Hf & Hnew).
  destruct (link_graph c w before empty_graph (after c w history)) as [r1 p1].
  simpl in Hr, Hp1, Hf. subst r1.
  exists new. split.
  - simpl. unfold mbind, run_bind, get_outbound_links. simpl.
    destruct (cache p1 !! Positional failing) as [l|] eqn:Hc.
    { destruct Hfail. apply Hp1 in Hc as [Hprint Hw]. split; [done|by exists l]. }
    destruct (c failing) as [m|] eqn:Hprint; simpl.
    + by rewrite Hf, app_nil_r.
    + destruct (w failing) as [l|m|n] eqn:Hw; simpl.
      * destruct Hfail. split; [done|by exists l].
      * by rewrite Hf, app_assoc.
      * by rewrite Hf, app_assoc.
  - intros args Ha. destruct (Hnew args Ha) as [Hin _].
    apply list_elem_of_fmap in Hin as (t & -> & Ht). by exists t.
Qed.

Lemma X8_no_lookup_after_the_first_failure_witness :
  ∃ new,
    fetched (validate_path scenario_console scenario
               (PathFoundResult (["A"] ++ "Nonexistent Page" :: ["B"]))
               (after scenario_console scenario [])).2
    = fetched (after scenario_console scenario []) ++ new
      ++ match scenario_console "Nonexistent Page" with
         | None => [Positional "Nonexistent Page"]
         | Some _ => []
         end
    ∧ ∀ args, args ∈ new → ∃ t, args = Positional t ∧ t ∈ ["A"].
Proof.
  apply (X8_no_lookup_after_the_first_failure scenario_console scenario [] ["A"]
           "Nonexistent Page" ["B"]).
  - intros t Ht. apply list_elem_of_In in Ht. destruct Ht as [<-|[]].
    split; [reflexivity|eexists; reflexivity].
  - intros [_ [l Hl]]. discriminate Hl.
Defined.

(** X9.  After a validation, every title of the path that comes before the
    first title whose lookup does not return has a cache entry with its
    links under the positional key, whether the path was accepted or
    not. *)
Theorem X9_validation_fills_the_cache c w history (before rest : list string)
    title links :
  (∀ t, t ∈ before → c t = None ∧ resolves w t) →
  title ∈ before → w title = Links links →
  cache (validate_path c w (PathFoundResult (before ++ rest))
           (after c w history)).2 !! Positional title
  = Some links.
Proof.
  intros Hres Hin Hw. rewrite validate_path_state.
  by apply link_graph_populates; [apply after_sound|..].
Qed.

Lemma X9_validation_fills_the_cache_witness :
  cache (validate_path scenario_console scenario
           (PathFoundResult (["Lindsay Lohan"] ++ ["Nonexistent Page"]))
           (after scenario_console scenario [])).2 !! Positional "Lindsay Lohan"
  = Some ["Donald Trump"].
Proof.
  apply (X9_validation_fills_the_cache scenario_console scenario []
           ["Lindsay Lohan"] ["Nonexistent Page"] "Lindsay Lohan" ["Donald Trump"]).
  - intros t Ht. apply list_elem_of_In in Ht. destruct Ht as [<-|[]].
    split; [reflexivity|eexists; reflexivity].
  - by left.
  - reflexivity.
Defined.

(** X10.  When every title of the path resolves and its line is printed, a
    validation returns the path or raises [ModelRetry] with the reason
    "Path is not valid", and nothing else. *)
Theorem X10_reason_when_all_titles_resolve c w history (P : list string) :
  (∀ t, t ∈ P → c t = None ∧ resolves w t) →
  (validate_path c w (PathFoundResult P) (after c w history)).1
  = Return (PathFoundResult P)
  ∨ (validate_path c w (PathFoundResult P) (after c w history)).1
    = Raise (ModelRetry "Path is not valid").
Proof. intros Hres. rewrite validate_path_after. by apply verdict_resolved. Qed.

Lemma X10_reason_when_all_titles_resolve_witness :
  (validate_path scenario_console scenario (PathFoundResult ["B"; "Stub"])
     (after scenario_console scenario [])).1
  = Return (PathFoundResult ["B"; "Stub"])
  ∨ (validate_path scenario_console scenario (PathFoundResult ["B"; "Stub"])
       (after scenario_console scenario [])).1
    = Raise (ModelRetry "Path is not valid").
Proof.
  apply (X10_reason_when_all_titles_resolve scenario_console scenario []
           ["B"; "Stub"]).
  intros t Ht. apply list_elem_of_In in Ht.
  destruct Ht as [<-|[<-|[]]]; (split; [reflexivity|eexists; reflexivity]).
Defined.

(** X11.  In any state, a validation makes at most as many queries as the
    path has titles, and none for a [NoPathFoundResult]. *)
Theorem X11_queries_bounded_by_the_path c w data p :
  ∃ new,
    fetched (validate_path c w data p).2 = fetched p ++ new
    ∧ length new ≤ length (titles data).
Proof.
  destruct data as [P|].
  - rewrite validate_path_state. apply link_graph_queries.
  - exists []. simpl. by rewrite app_nil_r.
Qed.

(** X12.  The process never queries a title on its own: every query in the
    log was made for a title of a validated path, by position, or for the
    title of a tool call, by keyword. *)
Theorem X12_only_asked_titles_are_queried c w history args :
  args ∈ fetched (after c w history) →
  ∃ c0, c0 ∈ history ∧ args ∈ asked c0.
Proof.
  intros Hin.
  destruct (after_grows c w [] history) as (_ & new & Hf & Hnew).
  simpl in Hf. rewrite Hf in Hin.
  destruct (Hnew args Hin) as [Ht _].
  apply list_elem_of_In, in_concat in Ht as (l & Hl & Ht).
  apply list_elem_of_In, list_elem_of_fmap in Hl as (c0 & -> & Hc).
  exists c0. split; [done|]. by apply list_elem_of_In.
Qed.

Lemma X12_only_asked_titles_are_queried_witness :
  ∃ c0, c0 ∈ [Validate (PathFoundResult ["A"; "B"]); Lookup "Stub"]
        ∧ Positional "B" ∈ asked c0.
Proof.
  apply (X12_only_asked_titles_are_queried scenario_console scenario
           [Validate (PathFoundResult ["A"; "B"]); Lookup "Stub"] (Positional "B")).
  by_evaluation.
Defined.

(** X13.  When the loop of a validation completes, the nodes of its graph
    are the titles of the path that have at least one link, and the links
    of the titles of the path: a title of the path without links is a node
    only if another title of the path links to it. *)
Theorem X13_nodes_of_the_graph c w history (P : list string) g :
  (link_graph c w P empty_graph (after c w history)).1 = Return g →
  ∀ n, n ∈ _node g ↔
       ∃ title links, title ∈ P ∧ w title = Links links ∧ links ≠ []
                      ∧ (n = title ∨ n ∈ links).
Proof.
  intros Hg n.
  destruct (link_graph_sound c w P empty_graph _ (after_sound c w history))
    as [Hr _].
  rewrite Hg in Hr. symmetry in Hr.
  destruct (graph_of_Return c w P _ g Hr graph_ok_empty) as (Hok & _ & _ & Hnode).
  rewrite (Hok n), Hnode. split; [|by right].
  intros [[? Hx]|H]; [|done]. simpl in Hx. by rewrite lookup_empty in Hx.
Qed.

Lemma X13_nodes_of_the_graph_witness :
  ∃ g, (link_graph scenario_console scenario ["B"; "Stub"] empty_graph
          (after scenario_console scenario [])).1
       = Return g
       ∧ ("Stub" ∈ _node g ↔
          ∃ title links, title ∈ ["B"; "Stub"] ∧ scenario title = Links links
                         ∧ links ≠ [] ∧ ("Stub" = title ∨ "Stub" ∈ links)).
Proof.
  eexists. split; [reflexivity|].
  apply (X13_nodes_of_the_graph scenario_console scenario [] ["B"; "Stub"]).
  reflexivity.
Defined.

(** X14.  A path that is accepted stays accepted when it is cut short:
    every non-empty prefix of an accepted path is accepted. *)
Theorem X14_prefix_of_an_accepted_path c w history history' (P Q : list string) :
  (validate_path c w (PathFoundResult (P ++ Q)) (after c w history)).1
  = Return (PathFoundResult (P ++ Q)) →
  P ≠ [] →
  (validate_path c w (PathFoundResult P) (after c w history')).1
  = Return (PathFoundResult P).
Proof.
  rewrite !validate_path_after, !verdict_accepted_iff. apply simple_path_in_prefix.
Qed.

Lemma X14_prefix_of_an_accepted_path_witness :
  (validate_path scenario_console scenario
     (PathFoundResult ["Lindsay Lohan"; "Donald Trump"])
     (after scenario_console scenario [])).1
  = Return (PathFoundResult ["Lindsay Lohan"; "Donald Trump"]).
Proof.
  apply (X14_prefix_of_an_accepted_path scenario_console scenario [] []
           ["Lindsay Lohan"; "Donald Trump"] ["Barack Obama"]).
  - reflexivity.
  - discriminate.
Defined.

(** X15.  Two accepted paths, the first ending with the title the second
    starts with, make an accepted path when put together, provided that no
    title occurs twice in the whole. *)
Theorem X15_joining_accepted_paths c w history1 history2 history
    (P Q : list string) a :
  (validate_path c w (PathFoundResult (P ++ [a])) (after c w history1)).1
  = Return (PathFoundResult (P ++ [a])) →
  (validate_path c w (PathFoundResult (a :: Q)) (after c w history2)).1
  = Return (PathFoundResult (a :: Q)) →
  NoDup (P ++ a :: Q) →
  (validate_path c w (PathFoundResult (P ++ a :: Q)) (after c w history)).1
  = Return (PathFoundResult (P ++ a :: Q)).
Proof.
  rewrite !validate_path_after, !verdict_accepted_iff. apply simple_path_in_join.
Qed.

Lemma X15_joining_accepted_paths_witness :
  (validate_path scenario_console scenario
     (PathFoundResult (["Lindsay Lohan"] ++ "Donald Trump" :: ["Barack Obama"]))
     (after scenario_console scenario [])).1
  = Return (PathFoundResult
              (["Lindsay Lohan"] ++ "Donald Trump" :: ["Barack Obama"])).
Proof.
  apply (X15_joining_accepted_paths scenario_console scenario [] [] []
           ["Lindsay Lohan"] ["Barack Obama"] "Donald Trump").
  - reflexivity.
  - reflexivity.
  - by_evaluation.
Defined.

(** X16.  The order of the links Wikipedia lists for a page, and their
    repetitions, do not matter: two encyclopedias that list the same links
    for every title (and raise the same exceptions) give every validation
    the same outcome. *)
Theorem X16_links_are_a_set c w w' history history' data :
  same_links w w' →
  (validate_path c w data (after c w history)).1
  = (validate_path c w' data (after c w' history')).1.
Proof. intros Hsame. rewrite !validate_path_after. by apply same_links_verdict. Qed.

Lemma X16_links_are_a_set_witness :
  (validate_path scenario_console
     (λ title, if decide (title = "Barack Obama")
               then Links ["Joe Biden"; "Donald Trump"; "Joe Biden"]
               else scenario title)
     (PathFoundResult ["Barack Obama"; "Donald Trump"])
     fresh).1
  = Return (PathFoundResult ["Barack Obama"; "Donald Trump"]).
Proof.
  rewrite <- (X16_links_are_a_set scenario_console scenario
                (λ title, if decide (title = "Barack Obama")
                          then Links ["Joe Biden"; "Donald Trump"; "Joe Biden"]
                          else scenario title)
                [] [] (PathFoundResult ["Barack Obama"; "Donald Trump"])).
  - reflexivity.
  - intros title. destruct (decide (title = "Barack Obama")) as [->|Hne].
    + intros t. change (t ∈ ["Donald Trump"; "Joe Biden"]
                        ↔ t ∈ ["Joe Biden"; "Donald Trump"; "Joe Biden"]).
      set_solver.
    + destruct (scenario title); done.
Defined.

(** X17.  A query that succeeded is never lost: arguments whose title
    resolves and that are in the log of queries have a cache entry with the
    links of the title. *)
Theorem X17_successful_query_is_cached c w history args links :
  args ∈ fetched (after c w history) → w (page_name_of args) = Links links →
  cache (after c w history) !! args = Some links.
Proof.
  intros Hin Hw. pose proof (times_present _ _ Hin) as Hone.
  rewrite (after_tally c w history args) in Hone by (by exists links).
  destruct (cache (after c w history) !! args) as [l|] eqn:Hc; [|lia].
  apply after_sound in Hc as [_ Hc]. congruence.
Qed.

Lemma X17_successful_query_is_cached_witness :
  cache (after scenario_console scenario
           [Validate (PathFoundResult ["A"; "Nonexistent Page"])])
    !! Positional "A" = Some ["B"].
Proof.
  apply (X17_successful_query_is_cached scenario_console scenario
           [Validate (PathFoundResult ["A"; "Nonexistent Page"])]
           (Positional "A") ["B"]).
  - by_evaluation.
  - reflexivity.
Defined.

(** X18.  A validation looks at the pages of the path only: two
    encyclopedias that agree on the titles of a result give its validation
    the same outcome, whatever they say about every other page. *)
Theorem X18_only_the_pages_of_the_path_matter c w w' history history' data :
  (∀ t, t ∈ titles data → w t = w' t) →
  (validate_path c w data (after c w history)).1
  = (validate_path c w' data (after c w' history')).1.
Proof.
  intros Hagree. rewrite !validate_path_after.
  destruct data as [P|]; [|done].
  unfold verdict. by rewrite (graph_of_agree c w w' P empty_graph Hagree).
Qed.

Lemma X18_only_the_pages_of_the_path_matter_witness :
  (validate_path scenario_console scenario
     (PathFoundResult ["Lindsay Lohan"; "Donald Trump"])
     (after scenario_console scenario [])).1
  = (validate_path scenario_console scenario_links
       (PathFoundResult ["Lindsay Lohan"; "Donald Trump"])
       (after scenario_console scenario_links [Lookup "Mercury"])).1.
Proof.
  apply (X18_only_the_pages_of_the_path_matter scenario_console scenario
           scenario_links [] [Lookup "Mercury"]
           (PathFoundResult ["Lindsay Lohan"; "Donald Trump"])).
  intros t Ht. apply list_elem_of_In in Ht. destruct Ht as [<-|[<-|[]]]; reflexivity.
Defined.
